(** * AudioRecorderDemo: the recorder / player lifecycle of the demo screen

    A shallow embedding of [src/components/AudioRecorderDemo.tsx].

    The component keeps six [useState] cells and defines five asynchronous
    handlers over the expo-av, expo-file-system and expo-sharing bindings.
    The bindings are external: they are modelled as a provider whose
    answers are arbitrary (every call may resolve or reject), together
    with a small world that tracks which handles the platform holds.

    A handler is a closure over the values of one render: it READS the
    state cells of that render and WRITES through the setters, and what it
    wrote before an exception stays written.  The monad [M] below has
    exactly these ingredients: a provider to ask, a machine (pending state,
    world, trace) to update, and a completion that is either a normal
    return or a thrown exception. *)

From Stdlib Require Import ZArith QArith.
From stdpp Require Import base gmap sets list strings.

Local Open Scope string_scope.
Local Open Scope nat_scope.
#[local] Set Warnings "-clear-no-such-hyp".

(** ** Data of the platform bindings *)

(** Handles are the identities of the [Audio.Recording] and [Audio.Sound]
    objects the component holds in its state. *)
Abbreviation Handle := nat (only parsing).

(** [PermissionStatus] of expo: the component compares it with
    ['granted'] only. *)
Inductive PermissionStatus := granted | denied | undetermined.

(** The options object handed to [prepareToRecordAsync] (lines 56-82). *)
Record AndroidOptions := {
  android_extension : string;
  android_outputFormat : Z;
  android_audioEncoder : Z;
  android_sampleRate : Z;
  android_numberOfChannels : Z;
  android_bitRate : Z }.

Record IOSOptions := {
  ios_extension : string;
  ios_audioQuality : Z;
  ios_outputFormat : string;
  ios_bitDepthHint : Z;
  ios_sampleRate : Z;
  ios_numberOfChannels : Z;
  ios_bitRate : Z;
  ios_bitRateStrategy : Z;
  ios_linearPCMBitDepth : Z;
  ios_linearPCMIsBigEndian : bool;
  ios_linearPCMIsFloat : bool }.

Record WebOptions := {
  web_mimeType : string;
  web_bitsPerSecond : Z }.

Record RecordingOptions := {
  android : AndroidOptions;
  ios : IOSOptions;
  web : WebOptions }.

(** The options object handed to [Sharing.shareAsync] (lines 181-185). *)
Record SharingOptions := {
  mimeType : string;
  dialogTitle : string;
  UTI : string }.

(** The two fields of a playback status the component looks at. *)
Record PlaybackStatus := {
  isLoaded : bool;
  didJustFinish : bool }.

(** ** State of the component (lines 10-16) *)

Record State := {
  recording : option Handle;
  recordedURI : option string;
  isRecording : bool;
  sound : option Handle;
  isPlaying : bool;
  error : option string }.

(** The state of the first render: the arguments of the six [useState]. *)
Definition initialState : State :=
  {| recording := None; recordedURI := None; isRecording := false;
     sound := None; isPlaying := false; error := None |}.

(** A call of one of the six setters, with its argument. *)
Inductive Setter :=
  | SetRecording (v : option Handle)
  | SetRecordedURI (v : option string)
  | SetIsRecording (v : bool)
  | SetSound (v : option Handle)
  | SetIsPlaying (v : bool)
  | SetError (v : option string).

Definition apply_setter (x : Setter) (s : State) : State :=
  match x with
  | SetRecording v =>
      {| recording := v; recordedURI := recordedURI s;
         isRecording := isRecording s; sound := sound s;
         isPlaying := isPlaying s; error := error s |}
  | SetRecordedURI v =>
      {| recording := recording s; recordedURI := v;
         isRecording := isRecording s; sound := sound s;
         isPlaying := isPlaying s; error := error s |}
  | SetIsRecording v =>
      {| recording := recording s; recordedURI := recordedURI s;
         isRecording := v; sound := sound s;
         isPlaying := isPlaying s; error := error s |}
  | SetSound v =>
      {| recording := recording s; recordedURI := recordedURI s;
         isRecording := isRecording s; sound := v;
         isPlaying := isPlaying s; error := error s |}
  | SetIsPlaying v =>
      {| recording := recording s; recordedURI := recordedURI s;
         isRecording := isRecording s; sound := sound s;
         isPlaying := v; error := error s |}
  | SetError v =>
      {| recording := recording s; recordedURI := recordedURI s;
         isRecording := isRecording s; sound := sound s;
         isPlaying := isPlaying s; error := v |}
  end.

(** JavaScript truthiness of a [string | null]: [null] and the empty
    string are falsy ([!recordedURI], lines 122 and 163). *)
Definition truthy (v : option string) : option string :=
  match v with
  | Some uri => if String.eqb uri "" then None else Some uri
  | None => None
  end.

(** ** Calls, events and the world of the platform *)

Inductive Call :=
  | RequestPermissionsAsync
  | SetAudioModeAsync (allowsRecordingIOS playsInSilentModeIOS : bool)
  | PrepareToRecordAsync (h : Handle) (options : RecordingOptions)
  | StartAsync (h : Handle)
  | StopAndUnloadAsync (h : Handle)
  | UnloadAsync (h : Handle)
  | CreateAsync (uri : string)
  | SetVolumeAsync (h : Handle) (volume : Q)
  | PlayAsync (h : Handle)
  | StopAsync (h : Handle)
  | IsAvailableAsync
  | GetInfoAsync (uri : string)
  | ShareAsync (uri : string) (options : SharingOptions).

Inductive Level := LevelLog | LevelError.

(** What an observer of one handler run sees, in order: the asynchronous
    calls with whether they resolved, the console lines, the setter
    calls. *)
Inductive Event :=
  | Called (c : Call) (resolved : bool)
  | Console (level : Level) (msg : string)
  | Update (x : Setter).

Definition is_rejection (e : Event) : bool :=
  match e with Called _ false => true | _ => false end.

(** Some asynchronous call of the trace was rejected. *)
Definition rejected (t : list Event) : bool := existsb is_rejection t.

(** A status listener is the closure given to
    [setOnPlaybackStatusUpdate]; all such a closure of this component
    does is call setters. *)
Abbreviation Listener := (PlaybackStatus -> list Setter) (only parsing).

(** The world: a clock counting the asynchronous calls made so far, the
    next object identity, the recordings that are capturing (from a
    resolved [startAsync] to a resolved [stopAndUnloadAsync]), the sounds
    that are loaded (from a resolved [createAsync] to a resolved
    [unloadAsync]), the registered status listeners, and the largest
    number of capturing recordings and of loaded sounds seen so far. *)
Record World := {
  tick : nat;
  fresh : Handle;
  capturing : gset nat;
  loaded : gset nat;
  listeners : gmap nat Listener;
  peakCapturing : nat;
  peakLoaded : nat }.

Definition initialWorld : World :=
  {| tick := 0; fresh := 0; capturing := ∅; loaded := ∅; listeners := ∅;
     peakCapturing := 0; peakLoaded := 0 |}.

(** The provider: what the platform answers to the call made at a given
    tick.  [None] is a rejected promise. *)
Record Provider := {
  permissions : nat -> option PermissionStatus;
  sharingAvailable : nat -> option bool;
  resolves : nat -> bool;
  uriOf : Handle -> option string }.

Definition advance (w : World) : World :=
  {| tick := S (tick w); fresh := fresh w; capturing := capturing w;
     loaded := loaded w; listeners := listeners w;
     peakCapturing := peakCapturing w; peakLoaded := peakLoaded w |}.

Definition allocate (w : World) : World :=
  {| tick := tick w; fresh := S (fresh w); capturing := capturing w;
     loaded := loaded w; listeners := listeners w;
     peakCapturing := peakCapturing w; peakLoaded := peakLoaded w |}.

Definition with_capturing (c : gset nat) (w : World) : World :=
  {| tick := tick w; fresh := fresh w; capturing := c;
     loaded := loaded w; listeners := listeners w;
     peakCapturing := peakCapturing w `max` size c;
     peakLoaded := peakLoaded w |}.

Definition with_loaded (l : gset nat) (w : World) : World :=
  {| tick := tick w; fresh := fresh w; capturing := capturing w;
     loaded := l; listeners := listeners w;
     peakCapturing := peakCapturing w;
     peakLoaded := peakLoaded w `max` size l |}.

Definition with_listener (h : Handle) (cb : Listener) (w : World) : World :=
  {| tick := tick w; fresh := fresh w; capturing := capturing w;
     loaded := loaded w; listeners := <[h := cb]> (listeners w);
     peakCapturing := peakCapturing w; peakLoaded := peakLoaded w |}.

(** ** The handler monad *)

Inductive Completion (A : Type) :=
  | Returned (a : A)
  | Thrown.
Arguments Returned {A} a.
Arguments Thrown {A}.

Record Machine := {
  pending : State;
  world : World;
  trace : list Event }.

Definition M (A : Type) : Type := Provider -> Machine -> Completion A * Machine.

Definition ret {A} (a : A) : M A := fun _ m => (Returned a, m).

Definition bind {A B} (c : M A) (k : A -> M B) : M B := fun P m =>
  match c P m with
  | (Returned a, m') => k a P m'
  | (Thrown, m') => (Thrown, m')
  end.

(** [try { body } catch (error) { handler }]: what the body did before it
    threw is kept. *)
Definition try_catch (body handler : M unit) : M unit := fun P m =>
  match body P m with
  | (Returned a, m') => (Returned a, m')
  | (Thrown, m') => handler P m'
  end.

Declare Scope handler_scope.
Delimit Scope handler_scope with handler.
Notation "x <- c ;; k" := (bind c (fun x => k))
  (at level 100, c at next level, right associativity) : handler_scope.
Notation "c ;; k" := (bind c (fun _ => k))
  (at level 100, right associativity) : handler_scope.
Local Open Scope handler_scope.

Definition emit (e : Event) (m : Machine) : Machine :=
  {| pending := pending m; world := world m; trace := trace m ++ [e] |}.

Definition on_world (f : World -> World) (m : Machine) : Machine :=
  {| pending := pending m; world := f (world m); trace := trace m |}.

(** An awaited call without a result: it takes one tick, is recorded with
    its outcome, and has its effect on the world only when it resolves. *)
Definition await (c : Call) (effect : World -> World) : M unit := fun P m =>
  if resolves P (tick (world m))
  then (Returned (), on_world advance (on_world effect (emit (Called c true) m)))
  else (Thrown, on_world advance (emit (Called c false) m)).

(** A setter call: recorded, and applied to the pending state. *)
Definition set (x : Setter) : M unit := fun _ m =>
  (Returned (),
   {| pending := apply_setter x (pending m); world := world m;
      trace := trace m ++ [Update x] |}).

Definition setRecording v := set (SetRecording v).
Definition setRecordedURI v := set (SetRecordedURI v).
Definition setIsRecording v := set (SetIsRecording v).
Definition setSound v := set (SetSound v).
Definition setIsPlaying v := set (SetIsPlaying v).
Definition setError (msg : string) := set (SetError (Some msg)).

Module console.
Definition log (msg : string) : M unit := fun _ m =>
  (Returned (), emit (Console LevelLog msg) m).
Definition error (msg : string) : M unit := fun _ m =>
  (Returned (), emit (Console LevelError msg) m).
End console.

Module Audio.
Definition requestPermissionsAsync : M PermissionStatus := fun P m =>
  match permissions P (tick (world m)) with
  | Some status =>
      (Returned status, on_world advance (emit (Called RequestPermissionsAsync true) m))
  | None =>
      (Thrown, on_world advance (emit (Called RequestPermissionsAsync false) m))
  end.

Definition setAudioModeAsync (allowsRecordingIOS playsInSilentModeIOS : bool) : M unit :=
  await (SetAudioModeAsync allowsRecordingIOS playsInSilentModeIOS) id.

(** [new Audio.Recording()]: a new object, no asynchronous call. *)
Definition newRecording : M Handle := fun _ m =>
  (Returned (fresh (world m)), on_world allocate m).

Definition prepareToRecordAsync (h : Handle) (options : RecordingOptions) : M unit :=
  await (PrepareToRecordAsync h options) id.

Definition startAsync (h : Handle) : M unit :=
  await (StartAsync h) (fun w => with_capturing ({[h]} ∪ capturing w) w).

Definition stopAndUnloadAsync (h : Handle) : M unit :=
  await (StopAndUnloadAsync h) (fun w => with_capturing (capturing w ∖ {[h]}) w).

Definition getURI (h : Handle) : M (option string) := fun P m =>
  (Returned (uriOf P h), m).

Module Sound.
(** [Audio.Sound.createAsync({ uri })]: a new, loaded sound. *)
Definition createAsync (uri : string) : M Handle := fun P m =>
  if resolves P (tick (world m))
  then
    let h := fresh (world m) in
    (Returned h,
     on_world advance
       (on_world (fun w => with_loaded ({[h]} ∪ loaded w) (allocate w))
          (emit (Called (CreateAsync uri) true) m)))
  else (Thrown, on_world advance (emit (Called (CreateAsync uri) false) m)).
End Sound.

Definition unloadAsync (h : Handle) : M unit :=
  await (UnloadAsync h) (fun w => with_loaded (loaded w ∖ {[h]}) w).

Definition setOnPlaybackStatusUpdate (h : Handle) (cb : Listener) : M unit := fun _ m =>
  (Returned (), on_world (with_listener h cb) m).

Definition setVolumeAsync (h : Handle) (volume : Q) : M unit :=
  await (SetVolumeAsync h volume) id.

Definition playAsync (h : Handle) : M unit := await (PlayAsync h) id.

Definition stopAsync (h : Handle) : M unit := await (StopAsync h) id.
End Audio.

Module FileSystem.
Definition getInfoAsync (uri : string) : M unit := await (GetInfoAsync uri) id.
End FileSystem.

Module Sharing.
Definition isAvailableAsync : M bool := fun P m =>
  match sharingAvailable P (tick (world m)) with
  | Some b => (Returned b, on_world advance (emit (Called IsAvailableAsync true) m))
  | None => (Thrown, on_world advance (emit (Called IsAvailableAsync false) m))
  end.

Definition shareAsync (uri : string) (options : SharingOptions) : M unit :=
  await (ShareAsync uri options) id.
End Sharing.

(** ** The component *)

#[global] Instance PermissionStatus_eq_dec : EqDecision PermissionStatus.
Proof. solve_decision. Defined.

(** The recording options of lines 56-82. *)
Definition recordingOptions : RecordingOptions :=
  {| android :=
       {| android_extension := ".wav";
          android_outputFormat := 0;
          android_audioEncoder := 0;
          android_sampleRate := 48000;
          android_numberOfChannels := 2;
          android_bitRate := 128000 |};
     ios :=
       {| ios_extension := ".wav";
          ios_audioQuality := 127;
          ios_outputFormat := "lpcm";
          ios_bitDepthHint := 32;
          ios_sampleRate := 48000;
          ios_numberOfChannels := 2;
          ios_bitRate := 128000;
          ios_bitRateStrategy := 0;
          ios_linearPCMBitDepth := 32;
          ios_linearPCMIsBigEndian := false;
          ios_linearPCMIsFloat := false |};
     web :=
       {| web_mimeType := "audio/wav";
          web_bitsPerSecond := 128000 |} |}.

(** The sharing options of lines 181-185. *)
Definition sharingOptions : SharingOptions :=
  {| mimeType := "audio/m4a";
     dialogTitle := "Share your audio recording";
     UTI := "public.audio" |}.

(** The playback-finished callback of lines 136-140. *)
Definition onPlaybackStatusUpdate (status : PlaybackStatus) : list Setter :=
  if isLoaded status && didJustFinish status then [SetIsPlaying false] else [].

Section Render.

(** The values of the state cells in the render whose handlers run. *)
Variable render : State.

(** Lines 38-94. *)
Definition startRecording : M unit :=
  try_catch
    (status <- Audio.requestPermissionsAsync ;;
     if bool_decide (status ≠ granted) then
       console.error "Permission to access microphone not granted"
     else
       Audio.setAudioModeAsync true true ;;
       newRecording <- Audio.newRecording ;;
       Audio.prepareToRecordAsync newRecording recordingOptions ;;
       Audio.startAsync newRecording ;;
       setRecording (Some newRecording) ;;
       setIsRecording true ;;
       console.log "Recording started")
    (console.error "Failed to start recording" ;;
     setError "Failed to start recording").

(** Lines 97-117. *)
Definition stopRecording : M unit :=
  try_catch
    (match recording render with
     | None => ret ()
     | Some recording =>
         Audio.stopAndUnloadAsync recording ;;
         uri <- Audio.getURI recording ;;
         console.log "Recording stopped and stored at:" ;;
         setRecordedURI uri ;;
         setRecording None ;;
         setIsRecording false ;;
         Audio.setAudioModeAsync false false
     end)
    (console.error "Failed to stop recording" ;;
     setError "Failed to stop recording").

(** Lines 120-153. *)
Definition playRecording : M unit :=
  try_catch
    (match truthy (recordedURI render) with
     | None => setError "No recording to play"
     | Some recordedURI =>
         match sound render with
         | Some sound => Audio.unloadAsync sound
         | None => ret ()
         end ;;
         newSound <- Audio.Sound.createAsync recordedURI ;;
         setSound (Some newSound) ;;
         Audio.setOnPlaybackStatusUpdate newSound onPlaybackStatusUpdate ;;
         Audio.setVolumeAsync newSound 1 ;;
         setIsPlaying true ;;
         Audio.playAsync newSound ;;
         console.log "Playback started"
     end)
    (console.error "Failed to play recorded audio" ;;
     setError "Failed to play recording").

(** Lines 155-160: the one handler without a [try]. *)
Definition stopPlayback : M unit :=
  match sound render with
  | Some sound =>
      Audio.stopAsync sound ;;
      setIsPlaying false
  | None => ret ()
  end.

(** Lines 162-190. *)
Definition shareRecording : M unit :=
  match truthy (recordedURI render) with
  | None => setError "No recording to share"
  | Some recordedURI =>
      try_catch
        (isSharingAvailable <- Sharing.isAvailableAsync ;;
         if negb isSharingAvailable then
           setError "Sharing is not available on this device"
         else
           FileSystem.getInfoAsync recordedURI ;;
           console.log "Original recording file info:" ;;
           Sharing.shareAsync recordedURI sharingOptions)
        (console.error "Error sharing recording:" ;;
         setError "Failed to share recording")
  end.

End Render.

(** ** Running the component *)

Inductive Op :=
  | StartRecording
  | StopRecording
  | PlayRecording
  | StopPlayback
  | ShareRecording.

Definition handler (op : Op) : State -> M unit :=
  match op with
  | StartRecording => fun _ => startRecording
  | StopRecording => stopRecording
  | PlayRecording => playRecording
  | StopPlayback => stopPlayback
  | ShareRecording => shareRecording
  end.

(** The platform delivers a playback status to the listener registered
    for a sound, if there is one. *)
Definition notify (h : Handle) (status : PlaybackStatus) : State -> M unit :=
  fun _ P m =>
    match listeners (world m) !! h with
    | Some cb =>
        (Returned (),
         {| pending := foldl (fun s x => apply_setter x s) (pending m) (cb status);
            world := world m;
            trace := trace m ++ (Update <$> cb status) |})
    | None => (Returned (), m)
    end.

(** One run of a handler from the state [s] of the current render. *)
Definition exec (P : Provider) (h : State -> M unit) (s : State) (w : World)
  : Completion unit * Machine :=
  h s P {| pending := s; world := w; trace := [] |}.

(** What can happen to the component: one of its operations is invoked,
    or the platform reports a playback status. *)
Inductive Step :=
  | Invoke (op : Op)
  | StatusUpdate (h : Handle) (status : PlaybackStatus).

Definition action (st : Step) : State -> M unit :=
  match st with
  | Invoke op => handler op
  | StatusUpdate h status => notify h status
  end.

Record Session := {
  current : State;
  platform : World;
  history : list Event;
  escaped : nat }.

Definition initialSession : Session :=
  {| current := initialState; platform := initialWorld; history := []; escaped := 0 |}.

(** A step runs to completion, the component renders again with the
    pending state, and the next step sees that render: the steps of a
    run are taken in turn, none while the handler of another is in
    flight.  Invocations that overlap are the matter of [play], below. *)
Definition step (P : Provider) (ses : Session) (st : Step) : Session :=
  let r := exec P (action st) (current ses) (platform ses) in
  {| current := pending r.2;
     platform := world r.2;
     history := history ses ++ trace r.2;
     escaped := match r.1 with Returned _ => escaped ses | Thrown => S (escaped ses) end |}.

Definition run (P : Provider) (steps : list Step) (ses : Session) : Session :=
  foldl (step P) ses steps.

(** The finished status the platform reports at the natural end. *)
Definition finished : PlaybackStatus := {| isLoaded := true; didJustFinish := true |}.

(** A provider that grants, is available and resolves every call except
    those made at the ticks of [failing]; recordings are stored at a
    fixed place. *)
Definition failingAt (failing : list nat) : Provider :=
  {| permissions := fun t => if existsb (Nat.eqb t) failing then None else Some granted;
     sharingAvailable := fun t => if existsb (Nat.eqb t) failing then None else Some true;
     resolves := fun t => negb (existsb (Nat.eqb t) failing);
     uriOf := fun _ => Some "file:///recording.wav" |}.

Definition cooperative : Provider := failingAt [].

(** The arguments of the [setError] calls of a trace, in order. *)
Definition surfaced (t : list Event) : list (option string) :=
  omap (fun e => match e with Update (SetError v) => Some v | _ => None end) t.

(** A provider that answers every call but never grants the microphone. *)
Definition denying : Provider :=
  {| permissions := fun _ => Some denied;
     sharingAvailable := fun _ => Some true;
     resolves := fun _ => true;
     uriOf := fun _ => Some "file:///recording.wav" |}.

(** A provider that answers every call but has no sharing. *)
Definition withoutSharing : Provider :=
  {| permissions := fun _ => Some granted;
     sharingAvailable := fun _ => Some false;
     resolves := fun _ => true;
     uriOf := fun _ => Some "file:///recording.wav" |}.

(** ** Disciplines of the caller *)

(** The steps are taken one after the other and every one of them is
    allowed, by [allowed], in the state it is taken from. *)
Fixpoint disciplined (allowed : State -> Step -> bool)
    (P : Provider) (steps : list Step) (ses : Session) : bool :=
  match steps with
  | [] => true
  | st :: rest =>
      allowed (current ses) st && disciplined allowed P rest (step P ses st)
  end.

(** The record button of the screen (lines 196-199) offers
    [startRecording] only while [isRecording] is false. *)
Definition recordButton (s : State) (st : Step) : bool :=
  match st with
  | Invoke StartRecording => negb (isRecording s)
  | _ => true
  end.

(** A caller that serializes the two lifecycles: no [startRecording]
    while playing, no [playRecording] while recording. *)
Definition serialized (s : State) (st : Step) : bool :=
  match st with
  | Invoke StartRecording => negb (isPlaying s)
  | Invoke PlayRecording => negb (isRecording s)
  | _ => true
  end.

(** What the calls of a history tell the platform about formats: the
    MIME type of a share, the container of a recording. *)
Definition formatHints (e : Event) : Prop :=
  match e with
  | Called (ShareAsync _ options) _ => mimeType options = "audio/m4a"
  | Called (PrepareToRecordAsync _ options) _ =>
      android_extension (android options) = ".wav" ∧
      ios_extension (ios options) = ".wav" ∧
      ios_outputFormat (ios options) = "lpcm" ∧
      web_mimeType (web options) = "audio/wav"
  | _ => True
  end.

(** The sessions the examples start from: a recording in progress, a
    finished recording, a finished recording being played. *)
Definition whileRecording (P : Provider) : Session :=
  run P [Invoke StartRecording] initialSession.

Definition afterRecording (P : Provider) : Session :=
  run P [Invoke StartRecording; Invoke StopRecording] initialSession.

Definition whilePlaying (P : Provider) : Session :=
  run P [Invoke StartRecording; Invoke StopRecording; Invoke PlayRecording]
    initialSession.

(** ** Invariants of a session *)

(** The handles the state holds, as a set. *)
Definition held (o : option Handle) : gset nat :=
  match o with
  | Some h => {[h]}
  | None => ∅
  end.

(** Playback side: every registered listener is the callback of the
    component, only the sound of the state can be loaded, and no more
    than one sound has been loaded at a time so far. *)
Definition playbackCoherent (ses : Session) : Prop :=
  (∀ h cb, listeners (platform ses) !! h = Some cb -> cb = onPlaybackStatusUpdate) ∧
  loaded (platform ses) ⊆ held (sound (current ses)) ∧
  size (loaded (platform ses)) ≤ peakLoaded (platform ses) ∧
  peakLoaded (platform ses) ≤ 1.

(** Recording side: only the recording of the state can be capturing, a
    component that does not say it records holds no recording, and no
    more than one recording has been capturing at a time so far. *)
Definition recordingCoherent (ses : Session) : Prop :=
  capturing (platform ses) ⊆ held (recording (current ses)) ∧
  (isRecording (current ses) = false -> recording (current ses) = None) ∧
  size (capturing (platform ses)) ≤ peakCapturing (platform ses) ∧
  peakCapturing (platform ses) ≤ 1.

(** The two flags are not both set. *)
Definition exclusive (ses : Session) : Prop :=
  ¬ (isRecording (current ses) = true ∧ isPlaying (current ses) = true).

(** ** The screen (lines 192-250, and App.tsx) *)

Inductive StyleValue :=
  | Num (n : Z)
  | Str (s : string).

Abbreviation Style := (list (string * StyleValue)) (only parsing).

(** [StyleSheet.create] of the component (lines 231-250). *)
Module styles.
Definition container : Style :=
  [("flex", Num 1); ("padding", Num 20);
   ("alignItems", Str "center"); ("justifyContent", Str "center")].
Definition title : Style := [("fontSize", Num 20); ("marginBottom", Num 20)].
Definition info : Style := [("marginTop", Num 20); ("textAlign", Str "center")].
Definition errorText : Style := [("color", Str "red"); ("marginTop", Num 10)].
End styles.

(** [StyleSheet.create] of App.tsx (lines 16-20). *)
Module AppStyles.
Definition container : Style := [("flex", Num 1)].
End AppStyles.

#[local] Set Warnings "-register-all".

(** What a render returns.  [Bare] is a string left among the children
    of a view, [Null] a child that renders nothing. *)
Inductive Element :=
  | View (style : Style) (children : list Element)
  | SafeAreaView (style : Style) (children : list Element)
  | Text (style : Style) (content : string)
  | Button (title : string) (onPress : Op) (disabled : bool)
  | Fragment (children : list Element)
  | Bare (content : string)
  | Null.

(** [{v && (e)}] for a [string | null]: [null] stays [null], the empty
    string stays the empty string, any other string gives the element. *)
Definition and_then (v : option string) (e : string -> Element) : Element :=
  match v with
  | None => Null
  | Some x => if String.eqb x "" then Bare x else e x
  end.

(** [!v] for a [string | null]. *)
Definition negated (v : option string) : bool :=
  match truthy v with
  | Some _ => false
  | None => true
  end.

(** The JSX the component returns (lines 192-226). *)
Definition AudioRecorderDemo (s : State) : Element :=
  View styles.container
    [ Text styles.title "Expo Audio Recorder Demo";
      Button (if isRecording s then "Stop Recording" else "Start Recording")
             (if isRecording s then StopRecording else StartRecording)
             false;
      View [("marginVertical", Num 10)] [];
      and_then (recordedURI s) (fun _ =>
        Fragment
          [ Button (if isPlaying s then "Stop Playing" else "Play Recording")
                   (if isPlaying s then StopPlayback else PlayRecording)
                   (negated (recordedURI s));
            View [("marginVertical", Num 10)] [];
            Button "Share Recording" ShareRecording false;
            Text styles.info "Recording available" ]);
      and_then (error s) (fun msg => Text styles.errorText msg) ].

(** App.tsx (lines 6-12). *)
Definition App (s : State) : Element :=
  SafeAreaView AppStyles.container [AudioRecorderDemo s].

(** The buttons of a tree, in order. *)
Fixpoint buttons (e : Element) : list (string * Op * bool) :=
  match e with
  | View _ children | SafeAreaView _ children | Fragment children =>
      mjoin (map buttons children)
  | Button title onPress disabled => [(title, onPress, disabled)]
  | Text _ _ | Bare _ | Null => []
  end.

(** The strings left bare among the children of the views of a tree. *)
Fixpoint bareStrings (e : Element) : list string :=
  match e with
  | View _ children | SafeAreaView _ children | Fragment children =>
      mjoin (map bareStrings children)
  | Bare content => [content]
  | Button _ _ _ | Text _ _ | Null => []
  end.

(** What a tap on the button with a given title invokes: the [onPress]
    of the first such button, unless it is disabled. *)
Definition onPressOf (title : string) (e : Element) : option Op :=
  match filter (fun b => b.1.1 = title) (buttons e) with
  | (_, onPress, false) :: _ => Some onPress
  | _ => None
  end.

(** What can happen to the screen: the user taps a button, or the
    platform reports a playback status. *)
#[global] Instance Op_eq_dec : EqDecision Op.
Proof. solve_decision. Defined.

#[global] Instance PlaybackStatus_eq_dec : EqDecision PlaybackStatus.
Proof. solve_decision. Defined.

#[global] Instance Step_eq_dec : EqDecision Step.
Proof. solve_decision. Defined.

Inductive Gesture :=
  | Tap (title : string)
  | Playback (h : Handle) (status : PlaybackStatus).

Definition gesture (P : Provider) (ses : Session) (g : Gesture) : Session :=
  match g with
  | Tap title =>
      match onPressOf title (App (current ses)) with
      | Some op => step P ses (Invoke op)
      | None => ses
      end
  | Playback h status => step P ses (StatusUpdate h status)
  end.

Definition use (P : Provider) (gestures : list Gesture) (ses : Session) : Session :=
  foldl (gesture P) ses gestures.

(** ** Further invariants of a session *)

(** The messages the component stores with [setError]. *)
Definition messages : list string :=
  [ "Failed to start recording"; "Failed to stop recording";
    "No recording to play"; "Failed to play recording";
    "No recording to share"; "Sharing is not available on this device";
    "Failed to share recording" ].

(** The stored error is [null] or one of the messages. *)
Definition errorKnown (s : State) : Prop :=
  match error s with
  | None => True
  | Some msg => msg ∈ messages
  end.

(** The flags follow the handles: the component says it records exactly
    when it holds a recording, and says it plays only when it holds a
    sound. *)
Definition flagsFollowHandles (s : State) : Prop :=
  (isRecording s = true ↔ is_Some (recording s)) ∧
  (isPlaying s = true -> is_Some (sound s)).

(** The sound of the state and every loaded sound have a listener. *)
Definition listened (ses : Session) : Prop :=
  held (sound (current ses)) ∪ loaded (platform ses)
    ⊆ dom (listeners (platform ses)).

(** The messages of the two guards for a missing recording. *)
Definition guardMessages : list string :=
  [ "No recording to play"; "No recording to share" ].

(** The asynchronous calls of a trace, with whether they resolved. *)
Definition calls (t : list Event) : list (Call * bool) :=
  omap (fun e => match e with Called c b => Some (c, b) | _ => None end) t.

(** The objects a call is made on, for a handler invoked in the state
    [s] and the world [w]: the URI, the recording and the sound of [s],
    or the object the handler created, whose identity is the next one of
    [w]. *)
Definition addresses (s : State) (w : World) (e : Event) : Prop :=
  match e with
  | Called (CreateAsync uri) _ | Called (GetInfoAsync uri) _ =>
      truthy (recordedURI s) = Some uri
  | Called (ShareAsync uri options) _ =>
      truthy (recordedURI s) = Some uri ∧ options = sharingOptions
  | Called (StopAndUnloadAsync h) _ => recording s = Some h
  | Called (UnloadAsync h) _ | Called (StopAsync h) _ => sound s = Some h
  | Called (PrepareToRecordAsync h _) _ | Called (StartAsync h) _
  | Called (PlayAsync h) _ => h = fresh w
  | Called (SetVolumeAsync h volume) _ => h = fresh w ∧ volume = 1%Q
  | _ => True
  end.

(** The number of [stopPlayback] invocations among steps. *)
Definition stopPlaybacks (steps : list Step) : nat :=
  length (filter (fun st => st = Invoke StopPlayback) steps).

(** What the screen offers in a state: the handler a button that is
    shown and enabled would invoke; status updates are not its business. *)
Definition offered (s : State) (st : Step) : bool :=
  match st with
  | Invoke StartRecording => negb (isRecording s)
  | Invoke StopRecording => isRecording s
  | Invoke PlayRecording => negb (negated (recordedURI s)) && negb (isPlaying s)
  | Invoke StopPlayback => negb (negated (recordedURI s)) && isPlaying s
  | Invoke ShareRecording => negb (negated (recordedURI s))
  | StatusUpdate _ _ => true
  end.

(** The stored error is [null] or a message other than those of the two
    guards for a missing recording. *)
Definition errorBeyondGuards (s : State) : Prop :=
  match error s with
  | None => True
  | Some msg => msg ∈ messages ∧ msg ∉ guardMessages
  end.

(** ** Handlers as tasks: invocations that overlap *)

(** An asynchronous handler does not run in one piece.  It runs until its
    first [await], gives the thread back, and goes on when the awaited
    call settles; in between, other handlers, invoked from whatever
    render was on the screen at the time, may run.  A [Task] is a handler
    cut at its [await]s: an action of the monad [M] and what to do with
    its completion, marked with whether the handler is suspended before
    the action.  An awaited call lands, effect and answer together, when
    the task is resumed. *)
Inductive Task : Type :=
  | Finish
  | Raise
  | Act (suspends : bool) {X : Type} (act : M X) (k : Completion X -> Task).

(** [await call]: the handler is suspended, then the call is made; a
    rejection is thrown where the [await] stands. *)
Definition awaiting {X} (call : M X) (k : X -> Task) : Task :=
  Act true call (fun r => match r with Returned x => k x | Thrown => Raise end).

(** A statement without [await]. *)
Definition doing {X} (act : M X) (k : X -> Task) : Task :=
  Act false act (fun r => match r with Returned x => k x | Thrown => Raise end).

(** [try { body } catch (error) { handler }] on tasks. *)
Fixpoint try_ (body handler : Task) : Task :=
  match body with
  | Finish => Finish
  | Raise => handler
  | Act suspends act k => Act suspends act (fun r => try_ (k r) handler)
  end.

(** One task after the other: the second where the first finishes. *)
Fixpoint andThen (p q : Task) : Task :=
  match p with
  | Finish => q
  | Raise => Raise
  | Act suspends act k => Act suspends act (fun r => andThen (k r) q)
  end.

Declare Scope task_scope.
Delimit Scope task_scope with task.
Notation "x <~ c ;; k" := (awaiting c (fun x => k))
  (at level 100, c at next level, right associativity) : task_scope.
Notation "c ~;; k" := (awaiting c (fun _ => k))
  (at level 100, right associativity) : task_scope.
Notation "x <- c ;; k" := (doing c (fun x => k))
  (at level 100, c at next level, right associativity) : task_scope.
Notation "c ;; k" := (doing c (fun _ => k))
  (at level 100, right associativity) : task_scope.

(** The five handlers again, with their [await]s ([<~] and [~;;]) where
    the source has them. *)
Module Async.
Local Open Scope task_scope.

Section Render.

Variable render : State.

(** Lines 38-94. *)
Definition startRecording : Task :=
  try_
    (status <~ Audio.requestPermissionsAsync ;;
     if bool_decide (status ≠ granted) then
       console.error "Permission to access microphone not granted" ;;
       Finish
     else
       Audio.setAudioModeAsync true true ~;;
       newRecording <- Audio.newRecording ;;
       Audio.prepareToRecordAsync newRecording recordingOptions ~;;
       Audio.startAsync newRecording ~;;
       setRecording (Some newRecording) ;;
       setIsRecording true ;;
       console.log "Recording started" ;;
       Finish)
    (console.error "Failed to start recording" ;;
     setError "Failed to start recording" ;;
     Finish).

(** Lines 97-117. *)
Definition stopRecording : Task :=
  try_
    (match recording render with
     | None => Finish
     | Some recording =>
         Audio.stopAndUnloadAsync recording ~;;
         uri <- Audio.getURI recording ;;
         console.log "Recording stopped and stored at:" ;;
         setRecordedURI uri ;;
         setRecording None ;;
         setIsRecording false ;;
         Audio.setAudioModeAsync false false ~;;
         Finish
     end)
    (console.error "Failed to stop recording" ;;
     setError "Failed to stop recording" ;;
     Finish).

(** Lines 120-153. *)
Definition playRecording : Task :=
  try_
    (match truthy (recordedURI render) with
     | None =>
         setError "No recording to play" ;;
         Finish
     | Some recordedURI =>
         andThen
           match sound render with
           | Some sound => Audio.unloadAsync sound ~;; Finish
           | None => Finish
           end
           (newSound <~ Audio.Sound.createAsync recordedURI ;;
            setSound (Some newSound) ;;
            Audio.setOnPlaybackStatusUpdate newSound onPlaybackStatusUpdate ;;
            Audio.setVolumeAsync newSound 1 ~;;
            setIsPlaying true ;;
            Audio.playAsync newSound ~;;
            console.log "Playback started" ;;
            Finish)
     end)
    (console.error "Failed to play recorded audio" ;;
     setError "Failed to play recording" ;;
     Finish).

(** Lines 155-160. *)
Definition stopPlayback : Task :=
  match sound render with
  | Some sound =>
      Audio.stopAsync sound ~;;
      setIsPlaying false ;;
      Finish
  | None => Finish
  end.

(** Lines 162-190. *)
Definition shareRecording : Task :=
  match truthy (recordedURI render) with
  | None =>
      setError "No recording to share" ;;
      Finish
  | Some recordedURI =>
      try_
        (isSharingAvailable <~ Sharing.isAvailableAsync ;;
         if negb isSharingAvailable then
           setError "Sharing is not available on this device" ;;
           Finish
         else
           FileSystem.getInfoAsync recordedURI ~;;
           console.log "Original recording file info:" ;;
           Sharing.shareAsync recordedURI sharingOptions ~;;
           Finish)
        (console.error "Error sharing recording:" ;;
         setError "Failed to share recording" ;;
         Finish)
  end.

End Render.

Definition handler (op : Op) : State -> Task :=
  match op with
  | StartRecording => fun _ => startRecording
  | StopRecording => stopRecording
  | PlayRecording => playRecording
  | StopPlayback => stopPlayback
  | ShareRecording => shareRecording
  end.

End Async.

(** A task run in one piece, as if nothing happened at its [await]s. *)
Fixpoint atomic (p : Task) : M unit :=
  match p with
  | Finish => fun _ m => (Returned (), m)
  | Raise => fun _ m => (Thrown, m)
  | Act _ act k => fun P m => let r := act P m in atomic (k r.1) P r.2
  end.

(** A task run up to its next [await], or to its end. *)
Fixpoint proceed (p : Task) (P : Provider) (m : Machine) : Task * Machine :=
  match p with
  | Act false act k => let r := act P m in proceed (k r.1) P r.2
  | _ => (p, m)
  end.

(** A suspended task resumed: the awaited call lands, and the task runs
    on to its next [await]. *)
Definition resume (p : Task) (P : Provider) (m : Machine) : Task * Machine :=
  match p with
  | Act true act k => let r := act P m in proceed (k r.1) P r.2
  | _ => (p, m)
  end.

Definition suspended (p : Task) : bool :=
  match p with
  | Act true _ _ => true
  | _ => false
  end.

(** The component with its handlers in flight: the state and the world
    they share (the trace is what happened since the first render), the
    suspended tasks, and the number of exceptions that left a handler. *)
Record Config := {
  shared : Machine;
  inflight : list Task;
  uncaught : nat }.

Definition initialConfig : Config :=
  {| shared := {| pending := initialState; world := initialWorld; trace := [] |};
     inflight := [];
     uncaught := 0 |}.

(** What happens: an operation is invoked, a button of the screen is
    touched, the awaited call of the i-th task in flight settles, the
    platform reports a playback status. *)
Inductive Happening :=
  | Begin (op : Op)
  | Touch (title : string)
  | Settle (i : nat)
  | Report (h : Handle) (status : PlaybackStatus).

(** A handler is invoked from the render of the current state and runs
    to its first [await]. *)
Definition invoke (P : Provider) (cfg : Config) (op : Op) : Config :=
  let r := proceed (Async.handler op (pending (shared cfg))) P (shared cfg) in
  {| shared := r.2;
     inflight := if suspended r.1 then inflight cfg ++ [r.1] else inflight cfg;
     uncaught := match r.1 with Raise => S (uncaught cfg) | _ => uncaught cfg end |}.

Definition perform (P : Provider) (cfg : Config) (e : Happening) : Config :=
  match e with
  | Begin op => invoke P cfg op
  | Touch title =>
      match onPressOf title (App (pending (shared cfg))) with
      | Some op => invoke P cfg op
      | None => cfg
      end
  | Settle i =>
      match inflight cfg !! i with
      | Some p =>
          let r := resume p P (shared cfg) in
          {| shared := r.2;
             inflight := if suspended r.1 then <[i := r.1]> (inflight cfg)
                         else delete i (inflight cfg);
             uncaught := match r.1 with Raise => S (uncaught cfg) | _ => uncaught cfg end |}
      | None => cfg
      end
  | Report h status =>
      {| shared := (notify h status (pending (shared cfg)) P (shared cfg)).2;
         inflight := inflight cfg;
         uncaught := uncaught cfg |}
  end.

Definition play (P : Provider) (happenings : list Happening) (cfg : Config) : Config :=
  foldl (perform P) cfg happenings.

(** No handler is in flight. *)
Definition idle (cfg : Config) : bool :=
  match inflight cfg with
  | [] => true
  | _ => false
  end.

(** The operation a happening invokes in a configuration, if any. *)
Definition invoked (cfg : Config) (e : Happening) : option Op :=
  match e with
  | Begin op => Some op
  | Touch title => onPressOf title (App (pending (shared cfg)))
  | _ => None
  end.

(** A happening comes at its time: an operation is invoked only while
    no handler is in flight, and only when [allowed] allows it in the
    state it is invoked from; calls settle and statuses are reported at
    any time. *)
Definition timely (allowed : State -> Step -> bool)
    (cfg : Config) (e : Happening) : bool :=
  match e with
  | Settle _ | Report _ _ => true
  | Begin _ | Touch _ =>
      idle cfg &&
      match invoked cfg e with
      | Some op => allowed (pending (shared cfg)) (Invoke op)
      | None => true
      end
  end.

(** The operations are invoked in turn: every happening comes at its
    time, and in the end no handler is in flight. *)
Fixpoint inTurn (allowed : State -> Step -> bool)
    (P : Provider) (happenings : list Happening) (cfg : Config) : bool :=
  match happenings with
  | [] => idle cfg
  | e :: rest => timely allowed cfg e && inTurn allowed P rest (perform P cfg e)
  end.

(** No discipline. *)
Definition anytime (s : State) (st : Step) : bool := true.

(** Nothing is invoked but through the buttons of the screen. *)
Definition touches (happenings : list Happening) : bool :=
  forallb (fun e => match e with Begin _ => false | _ => true end) happenings.

(** The awaited call of the first task in flight settles [n] times. *)
Definition settles (n : nat) : list Happening := replicate n (Settle 0).

(** A session and a machine show the same state and the same world. *)
Definition sameView (ses : Session) (m : Machine) : Prop :=
  current ses = pending m ∧ platform ses = world m.

(** The session a machine shows. *)
Definition sessionOf (m : Machine) : Session :=
  {| current := pending m; platform := world m; history := trace m; escaped := 0 |}.

(** Where a configuration with at most one handler in flight comes to
    rest when that handler is left to finish. *)
Definition settled (P : Provider) (cfg : Config) : Machine :=
  match inflight cfg with
  | [] => shared cfg
  | p :: _ => (atomic p P (shared cfg)).2
  end.

(** At most one handler is in flight, and it is suspended. *)
Definition inOrder (cfg : Config) : Prop :=
  inflight cfg = [] ∨ ∃ p, inflight cfg = [p] ∧ suspended p = true.

(** Every registered listener is the callback of the component. *)
Definition listenersKnown (w : World) : Prop :=
  ∀ h cb, listeners w !! h = Some cb -> cb = onPlaybackStatusUpdate.

(** The same state, but for [isPlaying], which may have been set to
    false by a playback status in the first and not in the second. *)
Definition below (s1 s2 : State) : Prop :=
  recording s1 = recording s2 ∧
  recordedURI s1 = recordedURI s2 ∧
  isRecording s1 = isRecording s2 ∧
  sound s1 = sound s2 ∧
  error s1 = error s2 ∧
  (isPlaying s1 = true -> isPlaying s2 = true).

Definition belowM (m1 m2 : Machine) : Prop :=
  below (pending m1) (pending m2) ∧ world m1 = world m2.

(** An action that does not read the state it writes to: from machines
    that differ as above it completes alike and leaves machines that
    differ as above; and it registers no listener but the callback of
    the component. *)
Definition obliviousAct {X} (act : M X) : Prop :=
  ∀ P m1 m2,
    belowM m1 m2 ->
    ((act P m1).1 = (act P m2).1 ∧ belowM (act P m1).2 (act P m2).2) ∧
    (listenersKnown (world m1) -> listenersKnown (world (act P m1).2)).

(** A task made of such actions only. *)
Fixpoint oblivious (p : Task) : Prop :=
  match p with
  | Finish | Raise => True
  | Act _ act k => obliviousAct act ∧ ∀ r, oblivious (k r)
  end.

(** What is kept while the operations are invoked in turn: at most one
    handler is in flight, it does not read the state, the listeners are
    those of the component, and [Good] holds where the configuration
    comes to rest. *)
Definition kept (P : Provider) (Good : Machine -> Prop) (cfg : Config) : Prop :=
  inOrder cfg ∧
  Forall oblivious (inflight cfg) ∧
  listenersKnown (world (shared cfg)) ∧
  Good (settled P cfg).

(** ** Single runs of a handler *)

Ltac unfold_handler :=
  unfold exec, action, handler, notify,
    startRecording, stopRecording, playRecording, stopPlayback, shareRecording,
    try_catch, bind, ret,
    setRecording, setRecordedURI, setIsRecording, setSound, setIsPlaying, setError, set,
    console.log, console.error,
    Audio.requestPermissionsAsync, Audio.setAudioModeAsync, Audio.newRecording,
    Audio.prepareToRecordAsync, Audio.startAsync, Audio.stopAndUnloadAsync,
    Audio.getURI, Audio.Sound.createAsync, Audio.unloadAsync,
    Audio.setOnPlaybackStatusUpdate, Audio.setVolumeAsync, Audio.playAsync,
    Audio.stopAsync, FileSystem.getInfoAsync, Sharing.isAvailableAsync,
    Sharing.shareAsync, await, emit, on_world in *.

(** Split on the answer of the provider to the next call of the goal. *)
Ltac next_answer :=
  match goal with
  | |- context [resolves ?P ?t] => destruct (resolves P t) eqn:?
  | |- context [permissions ?P ?t] => destruct (permissions P t) as [[]|] eqn:?
  | |- context [sharingAvailable ?P ?t] => destruct (sharingAvailable P t) as [[]|] eqn:?
  end.

(** Run a handler symbolically, one answer of the provider at a time;
    the cases in which two answers to the same call disagree go away. *)
Ltac crunch :=
  unfold_handler;
  repeat (simpl in *; try congruence; next_answer);
  simpl in *; try congruence.

Lemma startRecording_not_granted P s w status :
  permissions P (tick w) = Some status ->
  status ≠ granted ->
  let r := exec P (handler StartRecording) s w in
  r.1 = Returned () ∧ pending r.2 = s ∧
  trace r.2 = [Called RequestPermissionsAsync true;
               Console LevelError "Permission to access microphone not granted"].
Proof.
  intros Hperm Hne. crunch; auto.
Qed.

(** C2, at the failing input.  The first render, the microphone denied:
    [startRecording] returns, the state is the one it started from, and
    all that is left of the denial is a console line; no [setError] is
    called, so the error shown to the caller is still [null]. *)
Theorem startRecording_denied_not_surfaced :
  let r := exec denying (handler StartRecording) initialState initialWorld in
  r.1 = Returned () ∧
  pending r.2 = initialState ∧
  error (pending r.2) = None ∧
  surfaced (trace r.2) = [] ∧
  trace r.2 = [Called RequestPermissionsAsync true;
               Console LevelError "Permission to access microphone not granted"].
Proof. cbv zeta. repeat apply conj; vm_compute; reflexivity. Qed.

(** C3, as the code has it.  [stopRecording] with a recording held always
    returns.  When [stopAndUnloadAsync] is rejected, the only change is
    that "Failed to stop recording" is stored: the handle stays in the
    state, [isRecording] keeps its value and the recording keeps
    capturing.  When it resolves, the handle is dropped, [isRecording] is
    false and the URI is stored, also when the reset of the audio mode is
    rejected afterwards (which stores the same error). *)
Theorem stopRecording_outcomes P s w h :
  recording s = Some h ->
  let r := exec P (handler StopRecording) s w in
  r.1 = Returned () ∧
  (if resolves P (tick w)
   then recording (pending r.2) = None ∧
        isRecording (pending r.2) = false ∧
        recordedURI (pending r.2) = uriOf P h ∧
        (h ∉ capturing (world r.2)) ∧
        error (pending r.2) =
          (if resolves P (S (tick w)) then error s
           else Some "Failed to stop recording")
   else pending r.2 = apply_setter (SetError (Some "Failed to stop recording")) s ∧
        capturing (world r.2) = capturing w).
Proof.
  intros Hrec. unfold_handler. rewrite Hrec. crunch.
  all: repeat split; auto; by apply not_elem_of_difference; right; apply elem_of_singleton.
Qed.

(** The recording of the example session, its [stopAndUnloadAsync]
    rejected. *)
Lemma stopRecording_outcomes_witness :
  let ses := whileRecording (failingAt [4]) in
  recording (current ses) = Some 0 ∧
  let r := exec (failingAt [4]) (handler StopRecording) (current ses) (platform ses) in
  recording (pending r.2) = Some 0 ∧ isRecording (pending r.2) = true ∧
  error (pending r.2) = Some "Failed to stop recording".
Proof.
  cbv zeta. split; [reflexivity|].
  pose proof (stopRecording_outcomes (failingAt [4])
                (current (whileRecording (failingAt [4])))
                (platform (whileRecording (failingAt [4]))) 0 eq_refl) as [_ H].
  change (resolves (failingAt [4]) (tick (platform (whileRecording (failingAt [4])))))
    with false in H.
  destruct H as [-> _]. repeat split.
Defined.

(** C3 as stated fails: a recording is in progress and the platform
    rejects [stopAndUnloadAsync]; the error is stored, but the handle is
    still held and [isRecording] is still true. *)
Lemma stopRecording_keeps_handle_on_failure :
  ¬ (∀ P s w h,
       recording s = Some h ->
       resolves P (tick w) = false ->
       let r := exec P (handler StopRecording) s w in
       error (pending r.2) = Some "Failed to stop recording" ∧
       recording (pending r.2) = None ∧
       isRecording (pending r.2) = false).
Proof.
  intros H.
  specialize (H (failingAt [4]) (current (whileRecording (failingAt [4])))
                (platform (whileRecording (failingAt [4]))) 0 eq_refl eq_refl).
  destruct H as (_ & Hrec & _). vm_compute in Hrec. discriminate.
Qed.

(** The four handlers with a [try] around their calls always return. *)
Lemma guarded_handlers_return P s w op :
  op ≠ StopPlayback ->
  (exec P (handler op) s w).1 = Returned ().
Proof.
  intros Hop. destruct op; try congruence.
  - crunch; auto.
  - destruct (recording s) as [h|] eqn:Hrec; crunch; rewrite ?Hrec; crunch; auto.
  - destruct (truthy (recordedURI s)) as [uri|] eqn:Huri,
      (sound s) as [h|] eqn:Hsound; crunch; rewrite ?Huri, ?Hsound; crunch; auto.
  - destruct (truthy (recordedURI s)) as [uri|] eqn:Huri;
      crunch; rewrite ?Huri; crunch; auto.
Qed.

(** [stopPlayback] throws exactly when it holds a sound and [stopAsync]
    is rejected, and then it changes nothing. *)
Lemma stopPlayback_outcomes P s w :
  let r := exec P (handler StopPlayback) s w in
  match sound s with
  | None => r.1 = Returned () ∧ pending r.2 = s
  | Some h =>
      if resolves P (tick w)
      then r.1 = Returned () ∧ pending r.2 = apply_setter (SetIsPlaying false) s
      else r.1 = Thrown ∧ pending r.2 = s
  end.
Proof.
  destruct (sound s) as [h|] eqn:Hsound; crunch; rewrite ?Hsound; crunch;
    rewrite ?Hsound; auto.
Qed.

(** C5, at the failing input.  A recording is being played and the
    platform rejects [stopAsync]: [stopPlayback] has no [try], so the
    exception leaves the handler; nothing is caught, no error is stored
    and [isPlaying] stays true. *)
Theorem stopPlayback_rejection_escapes :
  let ses := whilePlaying (failingAt [9]) in
  let r := exec (failingAt [9]) (handler StopPlayback) (current ses) (platform ses) in
  sound (current ses) = Some 1 ∧
  r.1 = Thrown ∧
  trace r.2 = [Called (StopAsync 1) false] ∧
  pending r.2 = current ses ∧
  error (pending r.2) = None ∧
  isPlaying (pending r.2) = true ∧
  escaped (step (failingAt [9]) ses (Invoke StopPlayback)) = 1.
Proof. cbv zeta. repeat apply conj; vm_compute; reflexivity. Qed.

(** C8.  With a recording to share and sharing reported unavailable,
    [shareRecording] returns, stores "Sharing is not available on this
    device" and changes nothing else; the only call it makes is the
    availability check, so [shareAsync] is not invoked. *)
Theorem shareRecording_unavailable P s w uri :
  truthy (recordedURI s) = Some uri ->
  sharingAvailable P (tick w) = Some false ->
  let r := exec P (handler ShareRecording) s w in
  r.1 = Returned () ∧
  pending r.2 =
    apply_setter (SetError (Some "Sharing is not available on this device")) s ∧
  trace r.2 =
    [Called IsAvailableAsync true;
     Update (SetError (Some "Sharing is not available on this device"))] ∧
  (∀ u o b, Called (ShareAsync u o) b ∉ trace r.2).
Proof.
  intros Huri Havail. unfold_handler. rewrite Huri. simpl. rewrite Havail. simpl.
  repeat split.
  intros u o b Hin. apply elem_of_cons in Hin as [Hin|Hin]; [discriminate|].
  apply elem_of_cons in Hin as [Hin|Hin]; [discriminate|].
  by apply elem_of_nil in Hin.
Qed.

(** The example recording on a device without sharing. *)
Lemma shareRecording_unavailable_witness :
  let ses := afterRecording withoutSharing in
  let r := exec withoutSharing (handler ShareRecording) (current ses) (platform ses) in
  truthy (recordedURI (current ses)) = Some "file:///recording.wav" ∧
  sharingAvailable withoutSharing (tick (platform ses)) = Some false ∧
  error (pending r.2) = Some "Sharing is not available on this device" ∧
  (∀ u o b, Called (ShareAsync u o) b ∉ trace r.2).
Proof.
  cbv zeta.
  assert (Huri : truthy (recordedURI (current (afterRecording withoutSharing)))
                 = Some "file:///recording.wav") by (vm_compute; reflexivity).
  assert (Hna : sharingAvailable withoutSharing
                  (tick (platform (afterRecording withoutSharing))) = Some false)
    by reflexivity.
  split; [exact Huri|]. split; [exact Hna|].
  destruct (shareRecording_unavailable withoutSharing
              (current (afterRecording withoutSharing))
              (platform (afterRecording withoutSharing))
              "file:///recording.wav" Huri Hna) as (_ & Hst & _ & Hno).
  split; [|exact Hno]. rewrite Hst. reflexivity.
Defined.

(** C4, as the code has it.  When a call of [playRecording] is rejected
    and there is a recording to play, the handler returns and "Failed to
    play recording" is stored.  When the rejected call is not [playAsync]
    (so it is [unloadAsync], [createAsync] or [setVolumeAsync]),
    [isPlaying] keeps the value it had before the call: false when the
    component was not playing, true when it was. *)
Theorem playRecording_failure P s w uri :
  truthy (recordedURI s) = Some uri ->
  let r := exec P (handler PlayRecording) s w in
  rejected (trace r.2) = true ->
  r.1 = Returned () ∧
  error (pending r.2) = Some "Failed to play recording" ∧
  ((∀ h, Called (PlayAsync h) false ∉ trace r.2) ->
   isPlaying (pending r.2) = isPlaying s).
Proof.
  intros Huri. unfold_handler. rewrite Huri.
  destruct (sound s) as [h0|] eqn:Hsound; crunch; intros Hrej;
    try discriminate; repeat apply conj; auto.
  all: intros Hno; exfalso; eapply Hno; rewrite !elem_of_cons; eauto 12.
Qed.

(** A second [playRecording] during the playback, its [unloadAsync]
    rejected. *)
Lemma playRecording_failure_witness :
  let ses := whilePlaying (failingAt [9]) in
  let r := exec (failingAt [9]) (handler PlayRecording) (current ses) (platform ses) in
  truthy (recordedURI (current ses)) = Some "file:///recording.wav" ∧
  rejected (trace r.2) = true ∧
  error (pending r.2) = Some "Failed to play recording".
Proof.
  cbv zeta.
  assert (Huri : truthy (recordedURI (current (whilePlaying (failingAt [9]))))
                 = Some "file:///recording.wav") by (vm_compute; reflexivity).
  assert (Hrej : rejected (trace (exec (failingAt [9]) (handler PlayRecording)
                     (current (whilePlaying (failingAt [9])))
                     (platform (whilePlaying (failingAt [9])))).2) = true)
    by (vm_compute; reflexivity).
  split; [exact Huri|]. split; [exact Hrej|].
  exact (proj1 (proj2 (playRecording_failure (failingAt [9])
                         (current (whilePlaying (failingAt [9])))
                         (platform (whilePlaying (failingAt [9])))
                         "file:///recording.wav" Huri Hrej))).
Defined.

(** C4 as stated fails: a recording is being played, [playRecording] is
    called again and the platform rejects [unloadAsync] of the sound that
    is playing; the error is stored and [isPlaying] is still true. *)
Lemma playRecording_failure_while_playing :
  ¬ (∀ P s w uri,
       truthy (recordedURI s) = Some uri ->
       let r := exec P (handler PlayRecording) s w in
       rejected (trace r.2) = true ->
       error (pending r.2) = Some "Failed to play recording" ∧
       isPlaying (pending r.2) = false).
Proof.
  intros H.
  assert (Huri : truthy (recordedURI (current (whilePlaying (failingAt [9]))))
                 = Some "file:///recording.wav") by (vm_compute; reflexivity).
  specialize (H (failingAt [9]) (current (whilePlaying (failingAt [9])))
                (platform (whilePlaying (failingAt [9]))) _ Huri).
  cbv zeta in H.
  assert (Hrej : rejected (trace (exec (failingAt [9]) (handler PlayRecording)
                     (current (whilePlaying (failingAt [9])))
                     (platform (whilePlaying (failingAt [9])))).2) = true)
    by (vm_compute; reflexivity).
  destruct (H Hrej) as [_ Hplaying]. vm_compute in Hplaying. discriminate.
Qed.

(** The slip next to C4: the platform rejects [playAsync] itself.  The
    handler set [isPlaying] before the call and the [catch] does not set
    it back, so the component shows a playback that never started. *)
Example playAsync_rejected_leaves_playing :
  let ses := afterRecording (failingAt [8]) in
  let r := exec (failingAt [8]) (handler PlayRecording) (current ses) (platform ses) in
  isPlaying (current ses) = false ∧
  trace r.2 =
    [Called (CreateAsync "file:///recording.wav") true;
     Update (SetSound (Some 1));
     Called (SetVolumeAsync 1 1) true;
     Update (SetIsPlaying true);
     Called (PlayAsync 1) false;
     Console LevelError "Failed to play recorded audio";
     Update (SetError (Some "Failed to play recording"))] ∧
  isPlaying (pending r.2) = true.
Proof. cbv zeta. repeat apply conj; vm_compute; reflexivity. Qed.

(** C7, as the code has it.  An operation calls [setError] at most once,
    with a message; when it does, the stored error is that message, and
    when it does not, the stored error is the one stored before: nothing
    clears it. *)
Theorem error_is_latest P s w op :
  let r := exec P (handler op) s w in
  match surfaced (trace r.2) with
  | [] => error (pending r.2) = error s
  | [v] => is_Some v ∧ error (pending r.2) = v
  | _ => False
  end.
Proof.
  destruct op.
  - crunch; eauto.
  - destruct (recording s) as [h|] eqn:Hrec; crunch; rewrite ?Hrec; crunch; eauto.
  - destruct (truthy (recordedURI s)) as [uri|] eqn:Huri,
      (sound s) as [h|] eqn:Hsound; crunch; rewrite ?Huri, ?Hsound; crunch; eauto.
  - destruct (sound s) as [h|] eqn:Hsound; crunch; rewrite ?Hsound; crunch; eauto.
  - destruct (truthy (recordedURI s)) as [uri|] eqn:Huri;
      crunch; rewrite ?Huri; crunch; eauto.
Qed.

(** C7 as stated fails: "No recording to play" is stored by a
    [playRecording] without a recording; the [startRecording] that
    follows succeeds and surfaces nothing, and the old message is still
    stored. *)
Lemma success_keeps_the_old_error :
  ¬ (∀ P s w op,
       let r := exec P (handler op) s w in
       error (pending r.2) = mjoin (last (surfaced (trace r.2)))).
Proof.
  intros H.
  specialize (H cooperative
                (current (run cooperative [Invoke PlayRecording] initialSession))
                (platform (run cooperative [Invoke PlayRecording] initialSession))
                StartRecording).
  vm_compute in H. discriminate.
Qed.

(** C9.  After a [playRecording] whose calls all resolved, the component
    is playing a loaded sound for which its callback is registered; when
    the platform then reports the finished status of that sound, the
    callback sets [isPlaying] to false and does nothing else: no
    [stopAsync] is called and the rest of the state is as it was. *)
Theorem playback_completion P s w uri :
  truthy (recordedURI s) = Some uri ->
  let r := exec P (handler PlayRecording) s w in
  rejected (trace r.2) = false ->
  isPlaying (pending r.2) = true ∧
  ∃ h, sound (pending r.2) = Some h ∧
       h ∈ loaded (world r.2) ∧
       listeners (world r.2) !! h = Some onPlaybackStatusUpdate ∧
       let r' := exec P (notify h finished) (pending r.2) (world r.2) in
       r'.1 = Returned () ∧
       trace r'.2 = [Update (SetIsPlaying false)] ∧
       pending r'.2 = apply_setter (SetIsPlaying false) (pending r.2) ∧
       isPlaying (pending r'.2) = false.
Proof.
  intros Huri. unfold_handler. rewrite Huri.
  destruct (sound s) as [h0|] eqn:Hsound; crunch; intros Hrej; try discriminate.
  all: split; [reflexivity|]; eexists; split; [reflexivity|].
  all: split; [set_solver|]; rewrite lookup_insert_eq; auto.
Qed.

(** The example recording played on a platform that answers every call. *)
Lemma playback_completion_witness :
  let ses := afterRecording cooperative in
  let r := exec cooperative (handler PlayRecording) (current ses) (platform ses) in
  truthy (recordedURI (current ses)) = Some "file:///recording.wav" ∧
  rejected (trace r.2) = false ∧
  isPlaying (pending r.2) = true.
Proof.
  cbv zeta.
  assert (Huri : truthy (recordedURI (current (afterRecording cooperative)))
                 = Some "file:///recording.wav") by (vm_compute; reflexivity).
  assert (Hok : rejected (trace (exec cooperative (handler PlayRecording)
                    (current (afterRecording cooperative))
                    (platform (afterRecording cooperative))).2) = false)
    by (vm_compute; reflexivity).
  split; [exact Huri|]. split; [exact Hok|].
  exact (proj1 (playback_completion cooperative
                  (current (afterRecording cooperative))
                  (platform (afterRecording cooperative))
                  "file:///recording.wav" Huri Hok)).
Defined.

(** ** Sequences of steps *)

Lemma disciplined_invariant (I : Session -> Prop) allowed P :
  (∀ ses st, I ses -> allowed (current ses) st = true -> I (step P ses st)) ->
  ∀ steps ses,
    I ses -> disciplined allowed P steps ses = true -> I (run P steps ses).
Proof.
  intros Hstep. induction steps as [|st steps IH]; intros ses HI Hd; simpl in *.
  - exact HI.
  - apply andb_true_iff in Hd as [Hok Hd]. apply IH; auto.
Qed.

Lemma run_invariant (I : Session -> Prop) P :
  (∀ ses st, I ses -> I (step P ses st)) ->
  ∀ steps ses, I ses -> I (run P steps ses).
Proof.
  intros Hstep. induction steps as [|st steps IH]; intros ses HI; simpl.
  - exact HI.
  - apply IH, Hstep, HI.
Qed.

Lemma size_at_most_one (X : gset nat) :
  (∀ x y, x ∈ X -> y ∈ X -> x = y) -> size X ≤ 1.
Proof.
  intros Hone. destruct (set_choose_or_empty X) as [[x Hx]|Hempty].
  - rewrite <- (size_singleton (C := gset nat) x). apply subseteq_size.
    intros y Hy. apply elem_of_singleton. eauto.
  - apply size_empty_iff in Hempty. lia.
Qed.

(** Bound every set size of the goal by one, then leave arithmetic. *)
Ltac bound_sizes :=
  repeat match goal with
    | |- context [size ?X] =>
        let H := fresh "Hsize" in
        assert (H : size X ≤ 1) by (apply size_at_most_one; set_solver);
        generalize dependent (size X); intros
    end.

Ltac listeners_known :=
  match goal with
  | Hl : ∀ h cb, _ !! h = Some cb -> cb = onPlaybackStatusUpdate
    |- ∀ h cb, _ -> cb = onPlaybackStatusUpdate =>
      let h := fresh "h" in let cb := fresh "cb" in let H := fresh "H" in
      intros h cb H; try (apply lookup_insert_Some in H as [[_ H]|[_ H]]);
      [try (symmetry; exact H) | ..]; eauto
  end.

Lemma step_playbackCoherent P ses st :
  playbackCoherent ses -> playbackCoherent (step P ses st).
Proof.
  destruct ses as [s w hist esc]. unfold playbackCoherent, step. simpl.
  intros (Hl & Hsub & Hsz & Hpk).
  destruct st as [op|h status]; [destruct op|].
  - crunch; repeat apply conj; auto.
  - destruct (recording s) as [h|] eqn:Hrec; crunch; rewrite ?Hrec; crunch;
      repeat apply conj; auto.
  - destruct (truthy (recordedURI s)) as [uri|] eqn:Huri,
      (sound s) as [h|] eqn:Hsound; crunch; rewrite ?Huri, ?Hsound; crunch;
      rewrite ?Hsound in *; simpl in *; repeat apply conj;
      try listeners_known; try set_solver; bound_sizes; lia.
  - destruct (sound s) as [h|] eqn:Hsound; crunch; rewrite ?Hsound; crunch;
      rewrite ?Hsound in *; repeat apply conj; auto.
  - destruct (truthy (recordedURI s)) as [uri|] eqn:Huri;
      crunch; rewrite ?Huri; crunch; repeat apply conj; auto.
  - unfold_handler. simpl.
    destruct (listeners w !! h) as [cb|] eqn:Hcb; simpl; [|auto].
    rewrite (Hl _ _ Hcb). unfold onPlaybackStatusUpdate.
    destruct (isLoaded status && didJustFinish status); simpl; auto.
Qed.

Lemma step_recordingCoherent P ses st :
  playbackCoherent ses ->
  recordingCoherent ses ->
  recordButton (current ses) st = true ->
  recordingCoherent (step P ses st).
Proof.
  destruct ses as [s w hist esc]. unfold playbackCoherent, recordingCoherent, step.
  simpl. intros (Hl & _) (Hsub & Hflag & Hsz & Hpk) Hok.
  destruct st as [op|h status]; [destruct op|]; simpl in Hok.
  - apply negb_true_iff in Hok. specialize (Hflag Hok). rewrite Hflag in Hsub.
    clear Hl. crunch; rewrite ?Hflag; simpl; repeat apply conj;
      try congruence; try set_solver; bound_sizes; lia.
  - clear Hl. destruct (recording s) as [h|] eqn:Hrec; crunch; rewrite ?Hrec; crunch;
      rewrite ?Hrec in *; simpl in *; repeat apply conj;
      try congruence; try set_solver; bound_sizes; lia.
  - clear Hl. destruct (truthy (recordedURI s)) as [uri|] eqn:Huri,
      (sound s) as [h|] eqn:Hsound; crunch; rewrite ?Huri, ?Hsound; crunch;
      repeat apply conj; auto.
  - clear Hl. destruct (sound s) as [h|] eqn:Hsound; crunch; rewrite ?Hsound; crunch;
      repeat apply conj; auto.
  - clear Hl. destruct (truthy (recordedURI s)) as [uri|] eqn:Huri;
      crunch; rewrite ?Huri; crunch; repeat apply conj; auto.
  - unfold_handler. simpl.
    destruct (listeners w !! h) as [cb|] eqn:Hcb; simpl; [|auto].
    rewrite (Hl _ _ Hcb). unfold onPlaybackStatusUpdate.
    destruct (isLoaded status && didJustFinish status); simpl; auto.
Qed.

Lemma step_exclusive P ses st :
  playbackCoherent ses ->
  exclusive ses ->
  serialized (current ses) st = true ->
  exclusive (step P ses st).
Proof.
  destruct ses as [s w hist esc]. unfold playbackCoherent, exclusive, step.
  simpl. intros (Hl & _) Hex Hok.
  destruct st as [op|h status]; [destruct op|]; simpl in Hok.
  - apply negb_true_iff in Hok. clear Hl.
    crunch; rewrite ?Hok; intuition congruence.
  - clear Hl. destruct (recording s) as [h|] eqn:Hrec; crunch; rewrite ?Hrec; crunch;
      intuition congruence.
  - apply negb_true_iff in Hok. clear Hl.
    destruct (truthy (recordedURI s)) as [uri|] eqn:Huri,
      (sound s) as [h|] eqn:Hsound; crunch; rewrite ?Huri, ?Hsound; crunch;
      rewrite ?Hok; intuition congruence.
  - clear Hl. destruct (sound s) as [h|] eqn:Hsound; crunch; rewrite ?Hsound; crunch;
      intuition congruence.
  - clear Hl. destruct (truthy (recordedURI s)) as [uri|] eqn:Huri;
      crunch; rewrite ?Huri; crunch; intuition congruence.
  - unfold_handler. simpl.
    destruct (listeners w !! h) as [cb|] eqn:Hcb; simpl; [|auto].
    rewrite (Hl _ _ Hcb). unfold onPlaybackStatusUpdate.
    destruct (isLoaded status && didJustFinish status); simpl;
      intuition congruence.
Qed.

Lemma exec_formatHints P s w st :
  Forall formatHints (trace (exec P (action st) s w).2).
Proof.
  destruct st as [op|h status]; [destruct op|].
  - crunch; repeat constructor.
  - destruct (recording s) as [h|] eqn:Hrec; crunch; rewrite ?Hrec; crunch;
      repeat constructor.
  - destruct (truthy (recordedURI s)) as [uri|] eqn:Huri,
      (sound s) as [h|] eqn:Hsound; crunch; rewrite ?Huri, ?Hsound; crunch;
      repeat constructor.
  - destruct (sound s) as [h|] eqn:Hsound; crunch; rewrite ?Hsound; crunch;
      repeat constructor.
  - destruct (truthy (recordedURI s)) as [uri|] eqn:Huri;
      crunch; rewrite ?Huri; crunch; repeat constructor.
  - unfold_handler. simpl.
    destruct (listeners w !! h) as [cb|]; simpl; [|constructor].
    induction (cb status) as [|x xs IH]; simpl; constructor; [exact I | exact IH].
Qed.

Lemma initial_playbackCoherent : playbackCoherent initialSession.
Proof.
  unfold playbackCoherent. simpl. repeat apply conj; try done; lia.
Qed.

Lemma initial_recordingCoherent : recordingCoherent initialSession.
Proof.
  unfold recordingCoherent. simpl. repeat apply conj; try done; lia.
Qed.

Lemma run_playbackCoherent P steps :
  playbackCoherent (run P steps initialSession).
Proof.
  apply (run_invariant playbackCoherent P).
  - intros ses st. apply step_playbackCoherent.
  - apply initial_playbackCoherent.
Qed.

(** Steps taken one after the other: after any sequence of them no more
    than one sound has ever been loaded at a time, and no more than one
    recording has ever been capturing at a time when [startRecording]
    was only invoked while [isRecording] was false. *)
Theorem at_most_one_handle P steps :
  let ses := run P steps initialSession in
  (size (loaded (platform ses)) ≤ peakLoaded (platform ses) ∧
   peakLoaded (platform ses) ≤ 1) ∧
  (disciplined recordButton P steps initialSession = true ->
   size (capturing (platform ses)) ≤ peakCapturing (platform ses) ∧
   peakCapturing (platform ses) ≤ 1).
Proof.
  cbv zeta. split.
  - destruct (run_playbackCoherent P steps) as (_ & _ & Hsz & Hpk). auto.
  - intros Hd.
    assert (H : playbackCoherent (run P steps initialSession) ∧
                recordingCoherent (run P steps initialSession)).
    { apply (disciplined_invariant
               (fun ses => playbackCoherent ses ∧ recordingCoherent ses)
               recordButton P); [| |exact Hd].
      - intros ses st [Hp Hr] Hok. split.
        + by apply step_playbackCoherent.
        + by apply step_recordingCoherent.
      - split; [apply initial_playbackCoherent | apply initial_recordingCoherent]. }
    destruct H as (_ & _ & _ & Hsz & Hpk). auto.
Qed.

(** Two recordings one after the other, then two playbacks. *)
Lemma at_most_one_handle_witness :
  let steps := [Invoke StartRecording; Invoke StopRecording; Invoke StartRecording;
                Invoke StopRecording; Invoke PlayRecording; Invoke PlayRecording] in
  disciplined recordButton cooperative steps initialSession = true ∧
  peakCapturing (platform (run cooperative steps initialSession)) ≤ 1 ∧
  peakLoaded (platform (run cooperative steps initialSession)) ≤ 1.
Proof.
  cbv zeta.
  assert (Hd : disciplined recordButton cooperative
                 [Invoke StartRecording; Invoke StopRecording; Invoke StartRecording;
                  Invoke StopRecording; Invoke PlayRecording; Invoke PlayRecording]
                 initialSession = true) by (vm_compute; reflexivity).
  split; [exact Hd|].
  destruct (at_most_one_handle cooperative
              [Invoke StartRecording; Invoke StopRecording; Invoke StartRecording;
               Invoke StopRecording; Invoke PlayRecording; Invoke PlayRecording])
    as [[_ Hl] Hc].
  split; [exact (proj2 (Hc Hd)) | exact Hl].
Defined.


(** Steps taken one after the other: [isRecording] and [isPlaying] are
    not both true after a sequence of them in which [startRecording] was
    not invoked while [isPlaying] was true and [playRecording] was not
    invoked while [isRecording] was true. *)
Theorem flags_exclusive_when_serialized P steps :
  disciplined serialized P steps initialSession = true ->
  let ses := run P steps initialSession in
  ¬ (isRecording (current ses) = true ∧ isPlaying (current ses) = true).
Proof.
  intros Hd. cbv zeta.
  assert (H : playbackCoherent (run P steps initialSession) ∧
              exclusive (run P steps initialSession)).
  { apply (disciplined_invariant
             (fun ses => playbackCoherent ses ∧ exclusive ses) serialized P);
      [| |exact Hd].
    - intros ses st [Hp Hx] Hok. split.
      + by apply step_playbackCoherent.
      + by apply step_exclusive.
    - split; [apply initial_playbackCoherent|].
      unfold exclusive. simpl. intros [? _]. discriminate. }
  exact (proj2 H).
Qed.

(** Record, stop, play to the end, record again. *)
Lemma flags_exclusive_when_serialized_witness :
  let steps := [Invoke StartRecording; Invoke StopRecording; Invoke PlayRecording;
                StatusUpdate 1 finished; Invoke StartRecording] in
  disciplined serialized cooperative steps initialSession = true ∧
  ¬ (isRecording (current (run cooperative steps initialSession)) = true ∧
     isPlaying (current (run cooperative steps initialSession)) = true).
Proof.
  cbv zeta.
  assert (Hd : disciplined serialized cooperative
                 [Invoke StartRecording; Invoke StopRecording; Invoke PlayRecording;
                  StatusUpdate 1 finished; Invoke StartRecording]
                 initialSession = true) by (vm_compute; reflexivity).
  split; [exact Hd|].
  exact (flags_exclusive_when_serialized cooperative _ Hd).
Defined.


(** C10.  In the history of any sequence of steps, every [shareAsync] was
    given the MIME type "audio/m4a", whatever the URI, and every
    [prepareToRecordAsync] was given the ".wav" extension on both
    platforms, the "lpcm" output format and the "audio/wav" web type. *)
Theorem share_hint_is_m4a P steps :
  Forall formatHints (history (run P steps initialSession)).
Proof.
  apply (run_invariant (fun ses => Forall formatHints (history ses)) P).
  - intros ses st Hh. unfold step. simpl.
    apply Forall_app. split; [exact Hh | apply exec_formatHints].
  - constructor.
Qed.

(** The share of C10 is reached: the recording of the example session is
    shared from its ".wav" URI with the "audio/m4a" hint. *)
Example share_reached :
  let r := exec cooperative (handler ShareRecording)
             (current (afterRecording cooperative))
             (platform (afterRecording cooperative)) in
  last (trace r.2) =
    Some (Called (ShareAsync "file:///recording.wav" sharingOptions) true) ∧
  mimeType sharingOptions = "audio/m4a".
Proof. cbv zeta. split; vm_compute; reflexivity. Qed.

(** The scenario of the screen: record, stop, play, the playback ends by
    itself, share; every call resolves.  The component ends up idle with
    the recording and the sound it played, and without an error. *)
Example scenario :
  let ses := run cooperative
               [Invoke StartRecording; Invoke StopRecording; Invoke PlayRecording;
                StatusUpdate 1 finished; Invoke ShareRecording]
               initialSession in
  current ses =
    {| recording := None;
       recordedURI := Some "file:///recording.wav";
       isRecording := false;
       sound := Some 1;
       isPlaying := false;
       error := None |} ∧
  rejected (history ses) = false ∧
  escaped ses = 0.
Proof. cbv zeta. repeat apply conj; vm_compute; reflexivity. Qed.

(** ** More on single runs *)

(** X1.  When a call of [startRecording] is rejected (the permission
    request, the audio mode, the preparation or the start), the handler
    returns, its only state change is to store "Failed to start
    recording" (no recording is kept) and no recording has started
    capturing. *)
Theorem startRecording_failure P s w :
  let r := exec P (handler StartRecording) s w in
  rejected (trace r.2) = true ->
  r.1 = Returned () ∧
  pending r.2 = apply_setter (SetError (Some "Failed to start recording")) s ∧
  capturing (world r.2) = capturing w ∧
  (∀ x, Update x ∈ trace r.2 -> x = SetError (Some "Failed to start recording")).
Proof.
  crunch; intros Hrej; try discriminate; repeat apply conj; auto.
  all: intros x Hx; rewrite !elem_of_cons in Hx;
    repeat (destruct Hx as [Hx|Hx]; [try discriminate; congruence|]);
    by apply elem_of_nil in Hx.
Qed.

(** The first [startRecording], its [startAsync] rejected. *)
Lemma startRecording_failure_witness :
  let r := exec (failingAt [3]) (handler StartRecording) initialState initialWorld in
  rejected (trace r.2) = true ∧
  recording (pending r.2) = None ∧
  error (pending r.2) = Some "Failed to start recording".
Proof.
  cbv zeta.
  assert (Hrej : rejected (trace (exec (failingAt [3]) (handler StartRecording)
                    initialState initialWorld).2) = true) by (vm_compute; reflexivity).
  split; [exact Hrej|].
  destruct (startRecording_failure (failingAt [3]) initialState initialWorld Hrej)
    as (_ & -> & _). split; reflexivity.
Defined.

(** X2.  When the microphone is granted and no call is rejected,
    [startRecording] makes its four calls in this order (permission,
    recording audio mode, preparation with the fixed options, start), on a
    new recording, then stores that recording and sets [isRecording]; the
    recording is capturing and the other state cells are as before. *)
Theorem startRecording_success P s w :
  permissions P (tick w) = Some granted ->
  let r := exec P (handler StartRecording) s w in
  rejected (trace r.2) = false ->
  pending r.2 =
    apply_setter (SetIsRecording true) (apply_setter (SetRecording (Some (fresh w))) s) ∧
  capturing (world r.2) = {[fresh w]} ∪ capturing w ∧
  trace r.2 =
    [Called RequestPermissionsAsync true;
     Called (SetAudioModeAsync true true) true;
     Called (PrepareToRecordAsync (fresh w) recordingOptions) true;
     Called (StartAsync (fresh w)) true;
     Update (SetRecording (Some (fresh w)));
     Update (SetIsRecording true);
     Console LevelLog "Recording started"].
Proof.
  intros Hperm. crunch; intros Hrej; try discriminate; auto.
Qed.

(** The first [startRecording] on a platform that answers every call. *)
Lemma startRecording_success_witness :
  let r := exec cooperative (handler StartRecording) initialState initialWorld in
  permissions cooperative (tick initialWorld) = Some granted ∧
  rejected (trace r.2) = false ∧
  recording (pending r.2) = Some 0 ∧ isRecording (pending r.2) = true.
Proof.
  cbv zeta.
  assert (Hok : rejected (trace (exec cooperative (handler StartRecording)
                    initialState initialWorld).2) = false) by (vm_compute; reflexivity).
  split; [reflexivity|]. split; [exact Hok|].
  destruct (startRecording_success cooperative initialState initialWorld eq_refl Hok)
    as (-> & _). split; reflexivity.
Defined.

(** X3.  [startRecording] followed by [stopRecording], the microphone
    granted and the six calls resolved: the component holds no recording,
    does not record, and its URI is the one the new recording reports,
    whatever was stored before and whatever it is; sound, [isPlaying] and
    error are untouched, and the new recording is not capturing. *)
Theorem record_then_stop P ses :
  permissions P (tick (platform ses)) = Some granted ->
  (∀ t, tick (platform ses) < t ≤ tick (platform ses) + 5 -> resolves P t = true) ->
  let ses' := run P [Invoke StartRecording; Invoke StopRecording] ses in
  current ses' =
    apply_setter (SetIsRecording false)
      (apply_setter (SetRecording None)
         (apply_setter (SetRecordedURI (uriOf P (fresh (platform ses)))) (current ses))) ∧
  capturing (platform ses') = capturing (platform ses) ∖ {[fresh (platform ses)]} ∧
  rejected (history ses') = rejected (history ses) ∧
  escaped ses' = escaped ses.
Proof.
  destruct ses as [s w hist esc]. simpl. intros Hperm Hres.
  assert (H1 := Hres (S (tick w)) ltac:(lia)).
  assert (H2 := Hres (S (S (tick w))) ltac:(lia)).
  assert (H3 := Hres (S (S (S (tick w)))) ltac:(lia)).
  assert (H4 := Hres (S (S (S (S (tick w))))) ltac:(lia)).
  assert (H5 := Hres (S (S (S (S (S (tick w)))))) ltac:(lia)).
  clear Hres. unfold step. crunch.
  repeat apply conj; auto.
  - set_solver.
  - unfold rejected. rewrite !existsb_app. simpl. by rewrite !orb_false_r.
Qed.

(** The first recording of a session, every call resolved. *)
Lemma record_then_stop_witness :
  let ses' := run cooperative [Invoke StartRecording; Invoke StopRecording]
                initialSession in
  permissions cooperative (tick (platform initialSession)) = Some granted ∧
  (∀ t, tick (platform initialSession) < t ≤ tick (platform initialSession) + 5 ->
        resolves cooperative t = true) ∧
  recordedURI (current ses') = Some "file:///recording.wav" ∧
  recording (current ses') = None.
Proof.
  cbv zeta.
  assert (Hres : ∀ t, tick (platform initialSession) < t
                      ≤ tick (platform initialSession) + 5 ->
                      resolves cooperative t = true) by (intros; reflexivity).
  split; [reflexivity|]. split; [exact Hres|].
  destruct (record_then_stop cooperative initialSession eq_refl Hres) as (-> & _).
  split; reflexivity.
Defined.

(** X4.  After a [stopRecording] whose [stopAndUnloadAsync] resolved, a
    second [stopRecording] returns without a call, a console line or a
    state change, whether or not the reset of the audio mode had
    succeeded. *)
Theorem stopRecording_twice P s w h :
  recording s = Some h ->
  resolves P (tick w) = true ->
  let r1 := exec P (handler StopRecording) s w in
  let r2 := exec P (handler StopRecording) (pending r1.2) (world r1.2) in
  r2.1 = Returned () ∧
  trace r2.2 = [] ∧
  pending r2.2 = pending r1.2 ∧
  world r2.2 = world r1.2.
Proof.
  intros Hrec Hstop. unfold_handler. rewrite Hrec. crunch; auto.
Qed.

(** The recording of the example session, stopped twice. *)
Lemma stopRecording_twice_witness :
  let ses := whileRecording cooperative in
  let r1 := exec cooperative (handler StopRecording) (current ses) (platform ses) in
  let r2 := exec cooperative (handler StopRecording) (pending r1.2) (world r1.2) in
  recording (current ses) = Some 0 ∧
  resolves cooperative (tick (platform ses)) = true ∧
  trace r2.2 = [].
Proof.
  cbv zeta.
  assert (Hrec : recording (current (whileRecording cooperative)) = Some 0)
    by (vm_compute; reflexivity).
  split; [exact Hrec|]. split; [reflexivity|].
  exact (proj1 (proj2 (stopRecording_twice cooperative
                         (current (whileRecording cooperative))
                         (platform (whileRecording cooperative)) 0 Hrec eq_refl))).
Defined.

(** X5.  With a URI that is [null] or the empty string, [playRecording]
    and [shareRecording] make no call at all: each returns after storing
    its own message ("No recording to play", "No recording to share") and
    changes nothing else. *)
Theorem nothing_recorded P s w :
  truthy (recordedURI s) = None ->
  let play := exec P (handler PlayRecording) s w in
  let share := exec P (handler ShareRecording) s w in
  (play.1 = Returned () ∧
   trace play.2 = [Update (SetError (Some "No recording to play"))] ∧
   pending play.2 = apply_setter (SetError (Some "No recording to play")) s ∧
   world play.2 = w) ∧
  (share.1 = Returned () ∧
   trace share.2 = [Update (SetError (Some "No recording to share"))] ∧
   pending share.2 = apply_setter (SetError (Some "No recording to share")) s ∧
   world share.2 = w).
Proof.
  intros Huri. unfold_handler. rewrite Huri. simpl. auto 10.
Qed.

(** A state whose URI is the empty string. *)
Lemma nothing_recorded_witness :
  let s := apply_setter (SetRecordedURI (Some "")) initialState in
  truthy (recordedURI s) = None ∧
  error (pending (exec cooperative (handler PlayRecording) s initialWorld).2)
    = Some "No recording to play" ∧
  error (pending (exec cooperative (handler ShareRecording) s initialWorld).2)
    = Some "No recording to share".
Proof.
  cbv zeta. split; [reflexivity|].
  destruct (nothing_recorded cooperative
              (apply_setter (SetRecordedURI (Some "")) initialState) initialWorld eq_refl)
    as [(_ & _ & -> & _) (_ & _ & -> & _)].
  split; reflexivity.
Defined.

(** X6.  [playRecording] with a sound already held starts by unloading
    that sound.  If the unload is rejected, nothing else is called, the
    sound stays held and loaded, and "Failed to play recording" is stored.
    If the unload resolves and [createAsync] is rejected, the same error
    is stored and the state still holds the old sound, which is no longer
    loaded.  If both resolve, the state holds the new sound, it is loaded
    in place of the old one and the callback of the component is its
    listener. *)
Theorem playRecording_replaces_sound P s w uri h :
  truthy (recordedURI s) = Some uri ->
  sound s = Some h ->
  let r := exec P (handler PlayRecording) s w in
  head (trace r.2) = Some (Called (UnloadAsync h) (resolves P (tick w))) ∧
  (if resolves P (tick w)
   then
     if resolves P (S (tick w))
     then sound (pending r.2) = Some (fresh w) ∧
          loaded (world r.2) = {[fresh w]} ∪ (loaded w ∖ {[h]}) ∧
          listeners (world r.2) !! fresh w = Some onPlaybackStatusUpdate
     else pending r.2 = apply_setter (SetError (Some "Failed to play recording")) s ∧
          loaded (world r.2) = loaded w ∖ {[h]}
   else pending r.2 = apply_setter (SetError (Some "Failed to play recording")) s ∧
        loaded (world r.2) = loaded w ∧
        calls (trace r.2) = [(UnloadAsync h, false)]).
Proof.
  intros Huri Hsound. unfold_handler. rewrite Huri, Hsound. crunch;
    repeat apply conj; auto; by rewrite lookup_insert_eq.
Qed.

(** A second [playRecording] during the playback: the unload resolves,
    [createAsync] is rejected. *)
Lemma playRecording_replaces_sound_witness :
  let ses := whilePlaying (failingAt [10]) in
  let r := exec (failingAt [10]) (handler PlayRecording) (current ses) (platform ses) in
  truthy (recordedURI (current ses)) = Some "file:///recording.wav" ∧
  sound (current ses) = Some 1 ∧
  sound (pending r.2) = Some 1 ∧
  loaded (world r.2) = loaded (platform ses) ∖ {[1]}.
Proof.
  cbv zeta.
  assert (Huri : truthy (recordedURI (current (whilePlaying (failingAt [10]))))
                 = Some "file:///recording.wav") by (vm_compute; reflexivity).
  assert (Hsound : sound (current (whilePlaying (failingAt [10]))) = Some 1)
    by (vm_compute; reflexivity).
  assert (H0 : resolves (failingAt [10])
                 (tick (platform (whilePlaying (failingAt [10])))) = true)
    by (vm_compute; reflexivity).
  assert (H1 : resolves (failingAt [10])
                 (S (tick (platform (whilePlaying (failingAt [10]))))) = false)
    by (vm_compute; reflexivity).
  revert Huri Hsound H0 H1.
  generalize (current (whilePlaying (failingAt [10])))
             (platform (whilePlaying (failingAt [10]))).
  intros s w Huri Hsound H0 H1.
  pose proof (playRecording_replaces_sound (failingAt [10]) s w
                "file:///recording.wav" 1 Huri Hsound) as [_ H].
  rewrite H0, H1 in H. destruct H as [Hst Hl].
  split; [exact Huri|]. split; [exact Hsound|]. split; [|exact Hl].
  rewrite Hst. exact Hsound.
Defined.

(** X7.  Whatever the platform answers, a handler only calls the
    platform about what it was invoked with: [createAsync],
    [getInfoAsync] and [shareAsync] get the stored (non-empty) URI, the
    share always with the fixed options; [stopAndUnloadAsync] gets the
    held recording, [unloadAsync] and [stopAsync] the held sound; the
    other calls on an object are made on the one the handler has just
    created, and the volume is always set to 1. *)
Theorem calls_address_the_state P s w op :
  Forall (addresses s w) (trace (exec P (handler op) s w).2).
Proof.
  destruct op.
  - crunch; repeat constructor.
  - destruct (recording s) as [h|] eqn:Hrec; crunch; rewrite ?Hrec; crunch;
      repeat constructor; auto.
  - destruct (truthy (recordedURI s)) as [uri|] eqn:Huri,
      (sound s) as [h|] eqn:Hsound; crunch; rewrite ?Huri, ?Hsound; crunch;
      repeat constructor; auto.
  - destruct (sound s) as [h|] eqn:Hsound; crunch; rewrite ?Hsound; crunch;
      repeat constructor; auto.
  - destruct (truthy (recordedURI s)) as [uri|] eqn:Huri;
      crunch; rewrite ?Huri; crunch; repeat constructor; auto.
Qed.

(** X8.  [shareRecording] with a recording always returns, and its
    calls are decided step by step: a rejected availability check stores
    "Failed to share recording"; an unavailable sharing stores its own
    message; a rejected [getInfoAsync], whose result is only logged,
    stores "Failed to share recording" and prevents the share;
    otherwise [shareAsync] is called with the stored URI, and the error
    is stored when it is rejected and left as it was when it resolves. *)
Theorem shareRecording_outcomes P s w uri :
  truthy (recordedURI s) = Some uri ->
  let r := exec P (handler ShareRecording) s w in
  let failed := Some "Failed to share recording" in
  r.1 = Returned () ∧
  match sharingAvailable P (tick w) with
  | Some true =>
      if resolves P (S (tick w))
      then calls (trace r.2) =
             [(IsAvailableAsync, true); (GetInfoAsync uri, true);
              (ShareAsync uri sharingOptions, resolves P (S (S (tick w))))] ∧
           error (pending r.2) =
             (if resolves P (S (S (tick w))) then error s else failed)
      else calls (trace r.2) =
             [(IsAvailableAsync, true); (GetInfoAsync uri, false)] ∧
           error (pending r.2) = failed
  | Some false =>
      calls (trace r.2) = [(IsAvailableAsync, true)] ∧
      error (pending r.2) = Some "Sharing is not available on this device"
  | None =>
      calls (trace r.2) = [(IsAvailableAsync, false)] ∧
      error (pending r.2) = failed
  end.
Proof.
  intros Huri. unfold_handler. rewrite Huri. crunch; auto.
Qed.

(** The example recording shared, [getInfoAsync] rejected. *)
Lemma shareRecording_outcomes_witness :
  let ses := afterRecording (failingAt [7]) in
  let r := exec (failingAt [7]) (handler ShareRecording) (current ses) (platform ses) in
  truthy (recordedURI (current ses)) = Some "file:///recording.wav" ∧
  calls (trace r.2) =
    [(IsAvailableAsync, true); (GetInfoAsync "file:///recording.wav", false)] ∧
  error (pending r.2) = Some "Failed to share recording".
Proof.
  cbv zeta.
  assert (Huri : truthy (recordedURI (current (afterRecording (failingAt [7]))))
                 = Some "file:///recording.wav") by (vm_compute; reflexivity).
  assert (H0 : sharingAvailable (failingAt [7])
                 (tick (platform (afterRecording (failingAt [7])))) = Some true)
    by (vm_compute; reflexivity).
  assert (H1 : resolves (failingAt [7])
                 (S (tick (platform (afterRecording (failingAt [7]))))) = false)
    by (vm_compute; reflexivity).
  revert Huri H0 H1.
  generalize (current (afterRecording (failingAt [7])))
             (platform (afterRecording (failingAt [7]))).
  intros s w Huri H0 H1.
  pose proof (shareRecording_outcomes (failingAt [7]) s w
                "file:///recording.wav" Huri) as [_ H].
  rewrite H0, H1 in H. split; [exact Huri | exact H].
Defined.

(** X9.  What each handler can change, whatever the platform answers.
    [startRecording] and [stopRecording] leave the sound, [isPlaying] and
    the loaded sounds alone, and [startRecording] also the stored URI;
    [playRecording] and [stopPlayback] leave the recording, the URI,
    [isRecording] and the capturing recordings alone; [stopPlayback]
    never unloads or forgets the sound and never touches the error;
    [shareRecording] changes nothing but the error. *)
Theorem lifecycles_are_separate P s w op :
  let s' := pending (exec P (handler op) s w).2 in
  let w' := world (exec P (handler op) s w).2 in
  match op with
  | StartRecording =>
      recordedURI s' = recordedURI s ∧ sound s' = sound s ∧ isPlaying s' = isPlaying s ∧
      loaded w' = loaded w ∧ listeners w' = listeners w
  | StopRecording =>
      sound s' = sound s ∧ isPlaying s' = isPlaying s ∧
      loaded w' = loaded w ∧ listeners w' = listeners w
  | PlayRecording =>
      recording s' = recording s ∧ recordedURI s' = recordedURI s ∧
      isRecording s' = isRecording s ∧ capturing w' = capturing w
  | StopPlayback =>
      recording s' = recording s ∧ recordedURI s' = recordedURI s ∧
      isRecording s' = isRecording s ∧ sound s' = sound s ∧ error s' = error s ∧
      capturing w' = capturing w ∧ loaded w' = loaded w ∧ listeners w' = listeners w
  | ShareRecording =>
      recording s' = recording s ∧ recordedURI s' = recordedURI s ∧
      isRecording s' = isRecording s ∧ sound s' = sound s ∧ isPlaying s' = isPlaying s ∧
      capturing w' = capturing w ∧ loaded w' = loaded w ∧ listeners w' = listeners w
  end.
Proof.
  destruct op.
  - crunch; auto 10.
  - destruct (recording s) as [h|] eqn:Hrec; crunch; rewrite ?Hrec; crunch; auto 10.
  - destruct (truthy (recordedURI s)) as [uri|] eqn:Huri,
      (sound s) as [h|] eqn:Hsound; crunch; rewrite ?Huri, ?Hsound; crunch; auto 10.
  - destruct (sound s) as [h|] eqn:Hsound; crunch; rewrite ?Hsound; crunch; auto 10.
  - destruct (truthy (recordedURI s)) as [uri|] eqn:Huri;
      crunch; rewrite ?Huri; crunch; auto 10.
Qed.

(** ** More on sequences of steps *)

Lemma notify_known P ses h status :
  playbackCoherent ses ->
  step P ses (StatusUpdate h status) =
    {| current :=
         if bool_decide (h ∈ dom (listeners (platform ses)))
            && isLoaded status && didJustFinish status
         then apply_setter (SetIsPlaying false) (current ses)
         else current ses;
       platform := platform ses;
       history :=
         history ses ++
         (if bool_decide (h ∈ dom (listeners (platform ses)))
             && isLoaded status && didJustFinish status
          then [Update (SetIsPlaying false)] else []);
       escaped := escaped ses |}.
Proof.
  destruct ses as [s w hist esc]. intros (Hl & _). simpl in Hl.
  unfold step. unfold_handler. simpl.
  destruct (listeners w !! h) as [cb|] eqn:Hcb; simpl.
  - rewrite (Hl _ _ Hcb).
    rewrite bool_decide_eq_true_2 by (apply elem_of_dom; eauto).
    unfold onPlaybackStatusUpdate. simpl.
    destruct (isLoaded status && didJustFinish status); reflexivity.
  - rewrite bool_decide_eq_false_2 by (by apply not_elem_of_dom). reflexivity.
Qed.

(** X10.  In any session reached from the first render, a playback
    status changes the component exactly when it is reported for a sound
    the component created and says both [isLoaded] and [didJustFinish]:
    then [isPlaying] becomes false and nothing else changes.  Any other
    status is ignored; no status ever leads to a call or an exception. *)
Theorem status_update_effect P steps h status :
  let ses := run P steps initialSession in
  let finishes :=
    bool_decide (h ∈ dom (listeners (platform ses)))
    && isLoaded status && didJustFinish status in
  let ses' := step P ses (StatusUpdate h status) in
  current ses' =
    (if finishes then apply_setter (SetIsPlaying false) (current ses)
     else current ses) ∧
  platform ses' = platform ses ∧
  calls (history ses') = calls (history ses) ∧
  escaped ses' = escaped ses.
Proof.
  cbv zeta. rewrite (notify_known P _ h status (run_playbackCoherent P steps)).
  simpl. repeat apply conj; auto.
  unfold calls. rewrite omap_app.
  destruct (_ && _); simpl; by rewrite app_nil_r.
Qed.

Lemma exec_errorKnown P s w op :
  errorKnown s -> errorKnown (pending (exec P (handler op) s w).2).
Proof.
  unfold errorKnown, messages. intros Hs. destruct op.
  - crunch; auto; set_solver.
  - destruct (recording s) as [h|] eqn:Hrec; crunch; rewrite ?Hrec; crunch;
      auto; set_solver.
  - destruct (truthy (recordedURI s)) as [uri|] eqn:Huri,
      (sound s) as [h|] eqn:Hsound; crunch; rewrite ?Huri, ?Hsound; crunch;
      auto; set_solver.
  - destruct (sound s) as [h|] eqn:Hsound; crunch; rewrite ?Hsound; crunch; auto.
  - destruct (truthy (recordedURI s)) as [uri|] eqn:Huri;
      crunch; rewrite ?Huri; crunch; auto; set_solver.
Qed.

Lemma exec_flagsFollowHandles P s w op :
  flagsFollowHandles s -> flagsFollowHandles (pending (exec P (handler op) s w).2).
Proof.
  unfold flagsFollowHandles, is_Some. intros [Hr Hp]. destruct op.
  - crunch; naive_solver.
  - destruct (recording s) as [h|] eqn:Hrec; crunch; rewrite ?Hrec; crunch;
      naive_solver.
  - destruct (truthy (recordedURI s)) as [uri|] eqn:Huri,
      (sound s) as [h|] eqn:Hsound; crunch; rewrite ?Huri, ?Hsound; crunch;
      naive_solver.
  - destruct (sound s) as [h|] eqn:Hsound; crunch; rewrite ?Hsound; crunch;
      naive_solver.
  - destruct (truthy (recordedURI s)) as [uri|] eqn:Huri;
      crunch; rewrite ?Huri; crunch; naive_solver.
Qed.

Lemma run_wellFormed P steps :
  playbackCoherent (run P steps initialSession) ∧
  errorKnown (current (run P steps initialSession)) ∧
  flagsFollowHandles (current (run P steps initialSession)).
Proof.
  apply (run_invariant
           (fun ses => playbackCoherent ses ∧ errorKnown (current ses) ∧
                       flagsFollowHandles (current ses)) P).
  - intros ses st (Hc & He & Hf). split; [by apply step_playbackCoherent|].
    destruct st as [op|h status].
    + split; [by apply exec_errorKnown | by apply exec_flagsFollowHandles].
    + rewrite (notify_known P ses h status Hc). simpl.
      destruct (_ && _); [|done].
      split; [exact He|]. destruct Hf as [Hr Hp]. split; [exact Hr|]. done.
  - split; [apply initial_playbackCoherent|]. split; [exact I|].
    unfold flagsFollowHandles, is_Some. simpl. naive_solver.
Qed.

(** X11.  After any sequence of steps the stored error is [null] or one
    of the seven messages of the component (so never the empty
    string). *)
Theorem error_is_a_known_message P steps :
  errorKnown (current (run P steps initialSession)).
Proof. exact (proj1 (proj2 (run_wellFormed P steps))). Qed.

(** X12.  After any sequence of steps, [isRecording] is true exactly
    when a recording is held, and [isPlaying] is true only when a sound is
    held. *)
Theorem flags_follow_handles P steps :
  flagsFollowHandles (current (run P steps initialSession)).
Proof. exact (proj2 (proj2 (run_wellFormed P steps))). Qed.

Lemma step_listened P ses st :
  playbackCoherent ses -> listened ses -> listened (step P ses st).
Proof.
  intros Hc. destruct st as [op|h status].
  - clear Hc. destruct ses as [s w hist esc]. unfold listened, step. simpl.
    intros Hl. destruct op.
    + crunch; auto.
    + destruct (recording s) as [h|] eqn:Hrec; crunch; rewrite ?Hrec; crunch; auto.
    + destruct (truthy (recordedURI s)) as [uri|] eqn:Huri,
        (sound s) as [h|] eqn:Hsound; crunch; rewrite ?Huri, ?Hsound; crunch;
        rewrite ?Hsound in *; simpl in *; auto;
        rewrite ?dom_insert_L; set_solver.
    + destruct (sound s) as [h|] eqn:Hsound; crunch; rewrite ?Hsound; crunch;
        rewrite ?Hsound in *; auto.
    + destruct (truthy (recordedURI s)) as [uri|] eqn:Huri;
        crunch; rewrite ?Huri; crunch; auto.
  - rewrite (notify_known P ses h status Hc). unfold listened. simpl.
    destruct (_ && _); auto.
Qed.

(** X13.  After any sequence of steps, the sound the component holds
    and every loaded sound have a status listener, and every registered
    listener is the playback-finished callback of the component. *)
Theorem sounds_are_listened P steps :
  let ses := run P steps initialSession in
  listened ses ∧
  map_Forall (fun _ cb => cb = onPlaybackStatusUpdate) (listeners (platform ses)).
Proof.
  cbv zeta.
  assert (H : playbackCoherent (run P steps initialSession) ∧
              listened (run P steps initialSession)).
  { apply (run_invariant (fun ses => playbackCoherent ses ∧ listened ses) P).
    - intros ses st [Hc Hl]. split; [by apply step_playbackCoherent|].
      by apply step_listened.
    - split; [apply initial_playbackCoherent|]. unfold listened. simpl. set_solver. }
  destruct H as [(Hcb & _) Hl]. split; [exact Hl|].
  intros h cb Hh. eauto.
Qed.

Lemma escaped_step P ses st :
  escaped (step P ses st)
  ≤ escaped ses + (if decide (st = Invoke StopPlayback) then 1 else 0).
Proof.
  unfold step. cbn [escaped]. destruct st as [op|h status].
  - destruct (decide (op = StopPlayback)) as [->|Hop].
    + rewrite decide_True by done.
      destruct (exec P (action (Invoke StopPlayback)) (current ses) (platform ses)).1; lia.
    + rewrite decide_False by congruence.
      change (action (Invoke op)) with (handler op).
      rewrite (guarded_handlers_return P _ _ op Hop). lia.
  - rewrite decide_False by discriminate.
    unfold exec, action, notify. cbn [world pending].
    destruct (listeners (platform ses) !! h); cbn [fst]; lia.
Qed.

(** X14.  Over any sequence of steps, from any session, the number of
    exceptions that left a handler is at most the number of
    [stopPlayback] invocations: no other operation and no status update
    lets one out. *)
Theorem only_stopPlayback_throws P steps ses :
  escaped (run P steps ses) ≤ escaped ses + stopPlaybacks steps.
Proof.
  revert ses. induction steps as [|st steps IH]; intros ses.
  - simpl. lia.
  - change (run P (st :: steps) ses) with (run P steps (step P ses st)).
    etrans; [apply IH|]. pose proof (escaped_step P ses st) as Hst.
    unfold stopPlaybacks in *. rewrite filter_cons.
    repeat case_decide; simpl in *; try lia; congruence.
Qed.

(** ** The screen *)

Lemma buttons_App s :
  buttons (App s) =
    (if isRecording s then ("Stop Recording", StopRecording, false)
     else ("Start Recording", StartRecording, false)) ::
    (if negated (recordedURI s) then []
     else [ (if isPlaying s then ("Stop Playing", StopPlayback, false)
             else ("Play Recording", PlayRecording, false));
            ("Share Recording", ShareRecording, false) ]).
Proof.
  unfold App, AudioRecorderDemo, and_then, negated, truthy.
  destruct (isRecording s), (isPlaying s), (recordedURI s) as [uri|],
    (error s) as [msg|]; simpl;
    try destruct (String.eqb uri ""); try destruct (String.eqb msg ""); reflexivity.
Qed.

Lemma onPressOf_offered s title op :
  onPressOf title (App s) = Some op -> offered s (Invoke op) = true.
Proof.
  unfold onPressOf. rewrite buttons_App. unfold offered.
  destruct (isRecording s), (isPlaying s), (negated (recordedURI s)); simpl;
    rewrite ?filter_cons, ?filter_nil; simpl;
    repeat case_decide; simpl; intros Hpress; by simplify_eq.
Qed.

Lemma use_as_run P gestures ses :
  ∃ steps, use P gestures ses = run P steps ses ∧
           disciplined offered P steps ses = true.
Proof.
  revert ses. induction gestures as [|g gestures IH]; intros ses.
  - exists []. done.
  - change (use P (g :: gestures) ses) with (use P gestures (gesture P ses g)).
    destruct g as [title|h status]; simpl.
    + destruct (onPressOf title (App (current ses))) as [op|] eqn:Hop.
      * destruct (IH (step P ses (Invoke op))) as (steps & Hrun & Hd).
        exists (Invoke op :: steps). split; [exact Hrun|].
        cbn [disciplined]. apply andb_true_iff. split; [|exact Hd].
        by apply (onPressOf_offered _ title).
      * apply IH.
    + destruct (IH (step P ses (StatusUpdate h status))) as (steps & Hrun & Hd).
      exists (StatusUpdate h status :: steps). split; [exact Hrun|]. done.
Qed.

Lemma offered_recordButton s st : offered s st = true -> recordButton s st = true.
Proof. destruct st as [[]|]; simpl; auto. Qed.

(** Taps made one after the other, each after the handler of the one
    before has finished: no more than one recording has ever been
    capturing at a time and no more than one sound loaded at a time. *)
Theorem screen_keeps_one_of_each P gestures :
  let w := platform (use P gestures initialSession) in
  (size (capturing w) ≤ peakCapturing w ∧ peakCapturing w ≤ 1) ∧
  (size (loaded w) ≤ peakLoaded w ∧ peakLoaded w ≤ 1).
Proof.
  cbv zeta. destruct (use_as_run P gestures initialSession) as (steps & -> & Hd).
  assert (H : playbackCoherent (run P steps initialSession) ∧
              recordingCoherent (run P steps initialSession)).
  { apply (disciplined_invariant
             (fun ses => playbackCoherent ses ∧ recordingCoherent ses) offered P);
      [| |exact Hd].
    - intros ses st [Hp Hr] Hok. split.
      + by apply step_playbackCoherent.
      + apply step_recordingCoherent; auto using offered_recordButton.
    - split; [apply initial_playbackCoherent | apply initial_recordingCoherent]. }
  destruct H as [(_ & _ & Hl1 & Hl2) (_ & _ & Hc1 & Hc2)]. auto.
Qed.

Lemma exec_errorBeyondGuards P s w op :
  offered s (Invoke op) = true ->
  errorBeyondGuards s ->
  errorBeyondGuards (pending (exec P (handler op) s w).2).
Proof.
  unfold errorBeyondGuards, messages, guardMessages, offered, negated.
  intros Hok Hs. destruct op.
  - crunch; auto; (split; [set_solver|]);
      rewrite !not_elem_of_cons; repeat split; try discriminate; apply not_elem_of_nil.
  - destruct (recording s) as [h|] eqn:Hrec; crunch; rewrite ?Hrec; crunch;
      auto; (split; [set_solver|]);
      rewrite !not_elem_of_cons; repeat split; try discriminate; apply not_elem_of_nil.
  - destruct (truthy (recordedURI s)) as [uri|] eqn:Huri; [|discriminate].
    destruct (sound s) as [h|] eqn:Hsound; crunch; rewrite ?Huri, ?Hsound; crunch;
      auto; (split; [set_solver|]);
      rewrite !not_elem_of_cons; repeat split; try discriminate; apply not_elem_of_nil.
  - destruct (sound s) as [h|] eqn:Hsound; crunch; rewrite ?Hsound; crunch; auto.
  - destruct (truthy (recordedURI s)) as [uri|] eqn:Huri; [|discriminate].
    crunch; rewrite ?Huri; crunch;
      auto; (split; [set_solver|]);
      rewrite !not_elem_of_cons; repeat split; try discriminate; apply not_elem_of_nil.
Qed.

(** X16.  Through the screen, "No recording to play" and "No recording
    to share" are never stored: the play and share buttons exist only
    while a recording is stored, so the stored error is [null] or one of
    the five other messages. *)
Theorem screen_never_hits_the_guards P gestures :
  errorBeyondGuards (current (use P gestures initialSession)).
Proof.
  destruct (use_as_run P gestures initialSession) as (steps & -> & Hd).
  assert (H : playbackCoherent (run P steps initialSession) ∧
              errorBeyondGuards (current (run P steps initialSession))).
  { apply (disciplined_invariant
             (fun ses => playbackCoherent ses ∧ errorBeyondGuards (current ses))
             offered P); [| |exact Hd].
    - intros ses st [Hp He] Hok. split; [by apply step_playbackCoherent|].
      destruct st as [op|h status].
      + by apply exec_errorBeyondGuards.
      + rewrite (notify_known P ses h status Hp). simpl.
        destruct (_ && _); done.
    - split; [apply initial_playbackCoherent | exact I]. }
  exact (proj2 H).
Qed.

Lemma offered_reaches_the_platform P s w op :
  flagsFollowHandles s ->
  offered s (Invoke op) = true ->
  ∃ c b, head (trace (exec P (handler op) s w).2) = Some (Called c b).
Proof.
  unfold flagsFollowHandles, offered, negated. intros [Hr Hp] Hok. destruct op.
  - crunch; eauto.
  - destruct (proj1 Hr Hok) as [h Hrec]. crunch; rewrite ?Hrec; crunch; eauto.
  - destruct (truthy (recordedURI s)) as [uri|] eqn:Huri; [|discriminate].
    destruct (sound s) as [h|] eqn:Hsound; crunch; rewrite ?Huri, ?Hsound; crunch;
      eauto.
  - apply andb_true_iff in Hok as [_ Hok]. destruct (Hp Hok) as [h Hsound].
    crunch; rewrite ?Hsound; crunch; eauto.
  - destruct (truthy (recordedURI s)) as [uri|] eqn:Huri; [|discriminate].
    crunch; rewrite ?Huri; crunch; eauto.
Qed.

(** X17.  Through the screen, a tap that invokes a handler never ends
    in one of its silent guards: the handler always starts with a call to
    the platform.  In particular "Stop Recording" always finds a recording
    to stop and "Stop Playing" a sound to stop. *)
Theorem taps_reach_the_platform P gestures title op :
  let ses := use P gestures initialSession in
  onPressOf title (App (current ses)) = Some op ->
  ∃ c b, head (trace (exec P (handler op) (current ses) (platform ses)).2)
         = Some (Called c b).
Proof.
  cbv zeta. destruct (use_as_run P gestures initialSession) as (steps & -> & _).
  intros Hop. apply offered_reaches_the_platform.
  - exact (proj2 (proj2 (run_wellFormed P steps))).
  - by apply (onPressOf_offered _ title).
Qed.

(** The stop button while the first recording runs. *)
Lemma taps_reach_the_platform_witness :
  let ses := use cooperative [Tap "Start Recording"] initialSession in
  onPressOf "Stop Recording" (App (current ses)) = Some StopRecording ∧
  ∃ c b, head (trace (exec cooperative (handler StopRecording)
                        (current ses) (platform ses)).2)
         = Some (Called c b).
Proof.
  cbv zeta.
  assert (Hop : onPressOf "Stop Recording"
                  (App (current (use cooperative [Tap "Start Recording"] initialSession)))
                = Some StopRecording) by (vm_compute; reflexivity).
  split; [exact Hop|].
  exact (taps_reach_the_platform cooperative [Tap "Start Recording"]
           "Stop Recording" StopRecording Hop).
Defined.

Lemma exec_uri_nonempty P s w op :
  (∀ h, uriOf P h ≠ Some "") ->
  recordedURI s ≠ Some "" ->
  recordedURI (pending (exec P (handler op) s w).2) ≠ Some "".
Proof.
  intros Huri Hs. destruct op.
  - crunch; auto.
  - destruct (recording s) as [h|] eqn:Hrec; crunch; rewrite ?Hrec; crunch; auto.
  - destruct (truthy (recordedURI s)) as [uri|] eqn:Hu,
      (sound s) as [h|] eqn:Hsound; crunch; rewrite ?Hu, ?Hsound; crunch; auto.
  - destruct (sound s) as [h|] eqn:Hsound; crunch; rewrite ?Hsound; crunch; auto.
  - destruct (truthy (recordedURI s)) as [uri|] eqn:Hu;
      crunch; rewrite ?Hu; crunch; auto.
Qed.

Lemma bareStrings_App s :
  recordedURI s ≠ Some "" -> errorKnown s -> bareStrings (App s) = [].
Proof.
  unfold errorKnown, messages, App, AudioRecorderDemo, and_then.
  intros Huri Herr.
  destruct (recordedURI s) as [uri|]; [destruct (String.eqb_spec uri "")|];
    [congruence| |];
    (destruct (error s) as [msg|]; [|reflexivity]);
    rewrite !elem_of_cons in Herr;
    repeat (destruct Herr as [->|Herr]; [reflexivity|]);
    by apply elem_of_nil in Herr.
Qed.

(** X18.  When the platform never reports an empty URI, the tree [App]
    renders never has a bare string among the children of a view, after
    any sequence of steps: both [{recordedURI && ...}] and [{error &&
    ...}] give an element or nothing. *)
Theorem no_bare_strings P steps :
  (∀ h, uriOf P h ≠ Some "") ->
  bareStrings (App (current (run P steps initialSession))) = [].
Proof.
  intros Huri.
  assert (H : playbackCoherent (run P steps initialSession) ∧
              recordedURI (current (run P steps initialSession)) ≠ Some "").
  { apply (run_invariant
             (fun ses => playbackCoherent ses ∧ recordedURI (current ses) ≠ Some "") P).
    - intros ses st [Hc Hs]. split; [by apply step_playbackCoherent|].
      destruct st as [op|h status].
      + by apply exec_uri_nonempty.
      + rewrite (notify_known P ses h status Hc). simpl.
        destruct (_ && _); done.
    - split; [apply initial_playbackCoherent | done]. }
  apply bareStrings_App; [exact (proj2 H)|].
  exact (proj1 (proj2 (run_wellFormed P steps))).
Qed.

(** Record, stop and share on a platform that stores recordings at a
    fixed, non-empty URI. *)
Lemma no_bare_strings_witness :
  (∀ h, uriOf cooperative h ≠ Some "") ∧
  bareStrings (App (current (run cooperative
                               [Invoke StartRecording; Invoke StopRecording;
                                Invoke ShareRecording] initialSession))) = [].
Proof.
  assert (Huri : ∀ h : nat, uriOf cooperative h ≠ Some "") by (intros h; discriminate).
  split; [exact Huri|].
  exact (no_bare_strings cooperative _ Huri).
Defined.

(** ** Invocations that overlap *)

Ltac unfold_task :=
  unfold Async.handler, Async.startRecording, Async.stopRecording,
    Async.playRecording, Async.stopPlayback, Async.shareRecording,
    awaiting, doing in *;
  cbn [atomic try_ andThen] in *.

(** Run in one piece, a task is the handler it was cut from. *)
Lemma atomic_handler P op s m :
  atomic (Async.handler op s) P m = handler op s P m.
Proof.
  destruct m as [s0 w t]. destruct op.
  - unfold_task. crunch; reflexivity.
  - unfold_task. destruct (recording s) as [h|] eqn:Hrec;
      unfold_task; crunch; rewrite ?Hrec; crunch; reflexivity.
  - unfold_task. destruct (truthy (recordedURI s)) as [uri|] eqn:Huri,
      (sound s) as [h|] eqn:Hsound;
      unfold_task; crunch; rewrite ?Huri, ?Hsound; crunch; reflexivity.
  - unfold_task. destruct (sound s) as [h|] eqn:Hsound;
      unfold_task; crunch; rewrite ?Hsound; crunch; reflexivity.
  - unfold_task. destruct (truthy (recordedURI s)) as [uri|] eqn:Huri;
      unfold_task; crunch; rewrite ?Huri; crunch; reflexivity.
Qed.

(** What a handler does to the state and to the world does not depend on
    what happened before. *)
Lemma handler_ignores_trace P op s m :
  let r := handler op s P m in
  let r0 := exec P (handler op) s (world m) in
  pending m = s ->
  pending r.2 = pending r0.2 ∧ world r.2 = world r0.2.
Proof.
  destruct m as [s0 w t]. simpl. intros ->. destruct op.
  - crunch; auto.
  - destruct (recording s) as [h|] eqn:Hrec; crunch; rewrite ?Hrec; crunch; auto.
  - destruct (truthy (recordedURI s)) as [uri|] eqn:Huri,
      (sound s) as [h|] eqn:Hsound; crunch; rewrite ?Huri, ?Hsound; crunch; auto.
  - destruct (sound s) as [h|] eqn:Hsound; crunch; rewrite ?Hsound; crunch; auto.
  - destruct (truthy (recordedURI s)) as [uri|] eqn:Huri;
      crunch; rewrite ?Huri; crunch; auto.
Qed.

Lemma atomic_proceed p P m :
  atomic p P m = atomic (proceed p P m).1 P (proceed p P m).2.
Proof.
  revert m. induction p as [| |suspends X act k IH]; intros m; try reflexivity.
  destruct suspends; [reflexivity|]. simpl. apply IH.
Qed.

Lemma proceed_rests p P m :
  match (proceed p P m).1 with
  | Finish | Raise => True
  | Act suspends _ _ => suspends = true
  end.
Proof.
  revert m. induction p as [| |suspends X act k IH]; intros m; simpl; auto.
  destruct suspends; simpl; [reflexivity | apply IH].
Qed.

Lemma atomic_resume p P m :
  atomic p P m = atomic (resume p P m).1 P (resume p P m).2.
Proof.
  destruct p as [| |[] X act k]; try reflexivity.
  simpl. apply atomic_proceed.
Qed.

Lemma resume_rests p P m :
  suspended p = true ->
  match (resume p P m).1 with
  | Finish | Raise => True
  | Act suspends _ _ => suspends = true
  end.
Proof.
  destruct p as [| |[] X act k]; try discriminate. intros _. apply proceed_rests.
Qed.

Lemma step_sameView P ses m op :
  sameView ses m ->
  sameView (step P ses (Invoke op)) (atomic (Async.handler op (pending m)) P m).2.
Proof.
  intros [Hs Hw]. rewrite atomic_handler.
  destruct (handler_ignores_trace P op (pending m) m eq_refl) as [Hp Hl].
  unfold sameView, step. simpl. rewrite Hs, Hw. split; congruence.
Qed.

Lemma sameView_sessionOf m : sameView (sessionOf m) m.
Proof. by split. Qed.

Lemma playbackCoherent_view ses m :
  sameView ses m -> playbackCoherent ses -> playbackCoherent (sessionOf m).
Proof. intros [Hs Hw]. unfold playbackCoherent. simpl. by rewrite Hs, Hw. Qed.

Lemma recordingCoherent_view ses m :
  sameView ses m -> recordingCoherent ses -> recordingCoherent (sessionOf m).
Proof. intros [Hs Hw]. unfold recordingCoherent. simpl. by rewrite Hs, Hw. Qed.


Lemma playbackCoherent_below m1 m2 :
  belowM m1 m2 -> playbackCoherent (sessionOf m2) -> playbackCoherent (sessionOf m1).
Proof.
  intros [(_ & _ & _ & Hsound & _) Hw]. unfold playbackCoherent. simpl.
  by rewrite Hsound, Hw.
Qed.

Lemma recordingCoherent_below m1 m2 :
  belowM m1 m2 -> recordingCoherent (sessionOf m2) -> recordingCoherent (sessionOf m1).
Proof.
  intros [(Hrec & _ & Hflag & _) Hw]. unfold recordingCoherent. simpl.
  by rewrite Hrec, Hflag, Hw.
Qed.


Lemma below_refl s : below s s.
Proof. unfold below. auto 10. Qed.

Lemma belowM_refl m : belowM m m.
Proof. split; [apply below_refl | reflexivity]. Qed.

(** A playback status can only set [isPlaying] to false. *)
Lemma notify_below P m h status :
  listenersKnown (world m) ->
  belowM (notify h status (pending m) P m).2 m ∧
  world (notify h status (pending m) P m).2 = world m.
Proof.
  destruct m as [s w t]. simpl. intros Hl. unfold notify. simpl.
  destruct (listeners w !! h) as [cb|] eqn:Hcb; simpl.
  - rewrite (Hl _ _ Hcb). unfold onPlaybackStatusUpdate.
    destruct (isLoaded status && didJustFinish status); simpl.
    + split; [|reflexivity]. split; [|reflexivity]. unfold below. simpl.
      repeat split; auto. discriminate.
    + split; [|reflexivity]. split; [apply below_refl | reflexivity].
  - split; [|reflexivity]. split; [apply below_refl | reflexivity].
Qed.

(** *** The actions of the handlers do not read the state *)

Ltac oblivious_act :=
  let P := fresh "P" in let m1 := fresh "m" in let m2 := fresh "m" in
  let Hb := fresh "Hb" in let Hw := fresh "Hw" in
  intros P m1 m2 [Hb Hw];
  destruct m1 as [? ? ?], m2 as [? ? ?]; simpl in Hb, Hw; subst;
  unfold_handler; unfold belowM, below, listenersKnown in *; simpl in *;
  repeat case_match; simpl;
  (split; [split; [reflexivity | split; [tauto | reflexivity]] | tauto]).

Lemma oblivious_console_log msg : obliviousAct (console.log msg).
Proof. oblivious_act. Qed.

Lemma oblivious_console_error msg : obliviousAct (console.error msg).
Proof. oblivious_act. Qed.

Lemma oblivious_set x : obliviousAct (set x).
Proof. destruct x; oblivious_act. Qed.

Lemma oblivious_await c effect :
  (∀ w, listeners (effect w) = listeners w) -> obliviousAct (await c effect).
Proof.
  intros Heff P m1 m2 [Hb Hw].
  destruct m1 as [s1 w1 t1], m2 as [s2 w2 t2]. simpl in Hb, Hw. subst w2.
  unfold await, emit, on_world, belowM, listenersKnown. simpl.
  destruct (resolves P (tick w1)); simpl; rewrite ?Heff; auto.
Qed.

Lemma oblivious_requestPermissionsAsync : obliviousAct Audio.requestPermissionsAsync.
Proof. oblivious_act. Qed.

Lemma oblivious_newRecording : obliviousAct Audio.newRecording.
Proof. oblivious_act. Qed.

Lemma oblivious_getURI h : obliviousAct (Audio.getURI h).
Proof. oblivious_act. Qed.

Lemma oblivious_createAsync uri : obliviousAct (Audio.Sound.createAsync uri).
Proof. oblivious_act. Qed.

Lemma oblivious_isAvailableAsync : obliviousAct Sharing.isAvailableAsync.
Proof. oblivious_act. Qed.

Lemma oblivious_setOnPlaybackStatusUpdate h :
  obliviousAct (Audio.setOnPlaybackStatusUpdate h onPlaybackStatusUpdate).
Proof.
  intros P m1 m2 [Hb Hw].
  destruct m1 as [s1 w1 t1], m2 as [s2 w2 t2]. simpl in Hb, Hw. subst w2.
  unfold Audio.setOnPlaybackStatusUpdate, on_world, belowM, listenersKnown. simpl.
  split; [auto|]. intros Hl h' cb Hcb.
  apply lookup_insert_Some in Hcb as [[_ <-]|[_ Hcb]]; eauto.
Qed.

Create HintDb oblivious.
#[local] Hint Resolve oblivious_console_log oblivious_console_error oblivious_set
  oblivious_requestPermissionsAsync oblivious_newRecording oblivious_getURI
  oblivious_createAsync oblivious_isAvailableAsync
  oblivious_setOnPlaybackStatusUpdate : oblivious.

Lemma oblivious_try body handler :
  oblivious body -> oblivious handler -> oblivious (try_ body handler).
Proof.
  intros Hbody Hh. induction body as [| |suspends X act k IH]; simpl; auto.
  destruct Hbody as [Hact Hk]. split; [exact Hact|]. intros r. apply IH, Hk.
Qed.

Lemma oblivious_andThen p q :
  oblivious p -> oblivious q -> oblivious (andThen p q).
Proof.
  intros Hp Hq. induction p as [| |suspends X act k IH]; simpl; auto.
  destruct Hp as [Hact Hk]. split; [exact Hact|]. intros r. apply IH, Hk.
Qed.

Lemma oblivious_awaiting {X} (call : M X) k :
  obliviousAct call -> (∀ x, oblivious (k x)) -> oblivious (awaiting call k).
Proof. intros Hc Hk. split; [exact Hc|]. intros [x|]; simpl; auto. Qed.

Lemma oblivious_doing {X} (act : M X) k :
  obliviousAct act -> (∀ x, oblivious (k x)) -> oblivious (doing act k).
Proof. intros Hc Hk. split; [exact Hc|]. intros [x|]; simpl; auto. Qed.

(** Take a task apart down to its actions. *)
Ltac oblivious_task :=
  repeat match goal with
    | |- True => exact I
    | |- obliviousAct (set _) => apply oblivious_set
    | |- obliviousAct (await _ _) => apply oblivious_await; intros; reflexivity
    | |- obliviousAct _ => solve [eauto with oblivious]
    | |- oblivious Finish => exact I
    | |- oblivious Raise => exact I
    | |- oblivious (match ?x with _ => _ end) => destruct x
    | |- oblivious (try_ _ _) => apply oblivious_try
    | |- oblivious (andThen _ _) => apply oblivious_andThen
    | |- oblivious (awaiting _ _) => apply oblivious_awaiting
    | |- oblivious (doing _ _) => apply oblivious_doing
    | |- ∀ _, oblivious _ => intros ?
    end.

Lemma oblivious_handler op s : oblivious (Async.handler op s).
Proof.
  destruct op; unfold Async.handler, Async.startRecording, Async.stopRecording,
    Async.playRecording, Async.stopPlayback, Async.shareRecording,
    setRecording, setRecordedURI, setIsRecording, setSound, setIsPlaying, setError,
    Audio.setAudioModeAsync, Audio.prepareToRecordAsync, Audio.startAsync,
    Audio.stopAndUnloadAsync, Audio.unloadAsync, Audio.setVolumeAsync,
    Audio.playAsync, Audio.stopAsync, FileSystem.getInfoAsync, Sharing.shareAsync;
    oblivious_task.
Qed.

Lemma atomic_below P p :
  ∀ m1 m2,
    oblivious p -> belowM m1 m2 ->
    (atomic p P m1).1 = (atomic p P m2).1 ∧
    belowM (atomic p P m1).2 (atomic p P m2).2.
Proof.
  induction p as [| |suspends X act k IH]; intros m1 m2 Hp Hb; simpl; auto.
  destruct Hp as [Hact Hk]. destruct (Hact P m1 m2 Hb) as [[Hc Hb'] _].
  rewrite Hc. apply IH; [apply Hk | exact Hb'].
Qed.

Lemma proceed_keeps P p :
  ∀ m,
    oblivious p -> listenersKnown (world m) ->
    oblivious (proceed p P m).1 ∧ listenersKnown (world (proceed p P m).2).
Proof.
  induction p as [| |suspends X act k IH]; intros m Hp Hl; simpl; auto.
  destruct suspends; simpl; [auto|].
  destruct Hp as [Hact Hk].
  apply IH; [apply Hk|]. exact (proj2 (Hact P m m (belowM_refl m)) Hl).
Qed.

Lemma resume_keeps P p m :
  oblivious p -> listenersKnown (world m) ->
  oblivious (resume p P m).1 ∧ listenersKnown (world (resume p P m).2).
Proof.
  destruct p as [| |[] X act k]; simpl; auto.
  intros [Hact Hk] Hl.
  apply proceed_keeps; [apply Hk|]. exact (proj2 (Hact P m m (belowM_refl m)) Hl).
Qed.

Lemma invoke_settled P cfg op :
  idle cfg = true ->
  inOrder (invoke P cfg op) ∧
  settled P (invoke P cfg op)
    = (atomic (Async.handler op (pending (shared cfg))) P (shared cfg)).2.
Proof.
  unfold idle. destruct cfg as [m pool n]. simpl.
  destruct pool as [|p pool]; [|discriminate]. intros _.
  rewrite (atomic_proceed (Async.handler op (pending m)) P m).
  pose proof (proceed_rests (Async.handler op (pending m)) P m) as Hrest.
  unfold invoke, settled, inOrder. simpl.
  destruct (proceed (Async.handler op (pending m)) P m) as [p' m'].
  simpl in *. destruct p' as [| |suspends X act k]; simpl; auto.
  subst suspends. simpl. split; [right; eexists; split; reflexivity|reflexivity].
Qed.

Lemma settle_settled P cfg i :
  inOrder cfg ->
  inOrder (perform P cfg (Settle i)) ∧
  settled P (perform P cfg (Settle i)) = settled P cfg.
Proof.
  destruct cfg as [m pool n]. unfold inOrder. simpl.
  intros [->|(p & -> & Hp)].
  - simpl. auto.
  - destruct i as [|i]; simpl; [|split; [right; eauto|reflexivity]].
    unfold settled. simpl. rewrite (atomic_resume p P m).
    pose proof (resume_rests p P m Hp) as Hrest.
    destruct (resume p P m) as [p' m']. simpl in *.
    destruct p' as [| |suspends X act k]; simpl; auto.
    subst suspends. simpl. split; [right; eexists; split; reflexivity|reflexivity].
Qed.

(** A handler invoked while none is in flight, and left to finish, does
    what a step does. *)
Lemma invoke_is_a_step P cfg op :
  idle cfg = true ->
  sameView (step P (sessionOf (shared cfg)) (Invoke op))
           (settled P (invoke P cfg op)).
Proof.
  intros Hidle. rewrite (proj2 (invoke_settled P cfg op Hidle)).
  apply step_sameView, sameView_sessionOf.
Qed.

Section InTurn.

Variable P : Provider.
Variable allowed : State -> Step -> bool.
Variable Good : Machine -> Prop.

Hypothesis Good_below : ∀ m1 m2, belowM m1 m2 -> Good m2 -> Good m1.

Hypothesis Good_invoke :
  ∀ m op,
    Good m ->
    allowed (pending m) (Invoke op) = true ->
    Good (atomic (Async.handler op (pending m)) P m).2.

Lemma invoke_kept cfg op :
  kept P Good cfg ->
  idle cfg = true ->
  allowed (pending (shared cfg)) (Invoke op) = true ->
  kept P Good (invoke P cfg op).
Proof.
  intros (Hord & Hobl & Hl & Hgood) Hidle Hok.
  destruct (invoke_settled P cfg op Hidle) as [Hord' Hset].
  destruct (proceed_keeps P (Async.handler op (pending (shared cfg))) (shared cfg)
              (oblivious_handler _ _) Hl) as [Hobl' Hl'].
  assert (Hpool : inflight cfg = []).
  { unfold idle in Hidle. by destruct (inflight cfg). }
  assert (Hrest : settled P cfg = shared cfg) by (unfold settled; by rewrite Hpool).
  rewrite Hrest in Hgood.
  split; [exact Hord'|]. split; [|split; [exact Hl'|]].
  - unfold invoke. simpl. rewrite Hpool. simpl.
    destruct (suspended _); [|constructor]. by repeat constructor.
  - rewrite Hset. by apply Good_invoke.
Qed.

Lemma perform_kept cfg e :
  kept P Good cfg ->
  timely allowed cfg e = true ->
  kept P Good (perform P cfg e).
Proof.
  intros Hkept He. unfold timely in He.
  destruct e as [op|title|i|h status].
  - apply andb_true_iff in He as [Hidle Hok]. by apply invoke_kept.
  - apply andb_true_iff in He as [Hidle Hok]. simpl in Hok |- *.
    destruct (onPressOf title (App (pending (shared cfg)))) as [op|];
      [by apply invoke_kept | exact Hkept].
  - destruct Hkept as (Hord & Hobl & Hl & Hgood).
    destruct (settle_settled P cfg i Hord) as [Hord' Hset].
    split; [exact Hord'|]. rewrite Hset.
    simpl. destruct (inflight cfg !! i) as [p|] eqn:Hp; [|by auto].
    assert (Hop : oblivious p).
    { eapply Forall_forall; [exact Hobl|]. eapply list_elem_of_lookup_2, Hp. }
    destruct (resume_keeps P p (shared cfg) Hop Hl) as [Hobl' Hl'].
    simpl. split; [|by split].
    destruct (suspended _).
    + apply Forall_insert; auto.
    + by apply Forall_delete.
  - destruct Hkept as (Hord & Hobl & Hl & Hgood).
    destruct (notify_below P (shared cfg) h status Hl) as [Hb Hw].
    split; [exact Hord|]. split; [exact Hobl|]. simpl.
    split; [by rewrite Hw|].
    unfold settled in *. simpl.
    destruct (inflight cfg) as [|p pool] eqn:Hpool.
    + by apply (Good_below _ _ Hb).
    + apply Forall_cons in Hobl as [Hop _].
      exact (Good_below _ _ (proj2 (atomic_below P p _ _ Hop Hb)) Hgood).
Qed.

Lemma play_kept happenings :
  ∀ cfg,
    kept P Good cfg ->
    inTurn allowed P happenings cfg = true ->
    Good (shared (play P happenings cfg)).
Proof.
  induction happenings as [|e rest IH]; intros cfg Hkept Hturn.
  - simpl in *. destruct Hkept as (_ & _ & _ & Hgood).
    unfold settled in Hgood. unfold idle in Hturn.
    by destruct (inflight cfg).
  - change (play P (e :: rest) cfg) with (play P rest (perform P cfg e)).
    cbn [inTurn] in Hturn. apply andb_true_iff in Hturn as [He Hrest].
    apply IH; [|exact Hrest]. by apply perform_kept.
Qed.

End InTurn.

Lemma initial_kept P (Good : Machine -> Prop) :
  Good (shared initialConfig) -> kept P Good initialConfig.
Proof.
  intros Hgood. split; [by left|]. split; [constructor|]. split; [|exact Hgood].
  intros h cb Hcb. simpl in Hcb. by rewrite lookup_empty in Hcb.
Qed.

Lemma touches_are_offered P happenings :
  ∀ cfg,
    touches happenings = true ->
    inTurn anytime P happenings cfg = true ->
    inTurn offered P happenings cfg = true.
Proof.
  induction happenings as [|e rest IH]; intros cfg Ht Hturn; [exact Hturn|].
  cbn [touches forallb] in Ht. apply andb_true_iff in Ht as [He Ht].
  cbn [inTurn] in *. apply andb_true_iff in Hturn as [Hnow Hrest].
  apply andb_true_iff. split; [|by apply IH].
  destruct e as [op|title|i|h status]; try discriminate; auto.
  unfold timely in *. apply andb_true_iff in Hnow as [Hi _]. rewrite Hi. simpl.
  destruct (onPressOf title (App (pending (shared cfg)))) as [op|] eqn:Hop; [|done].
  by apply (onPressOf_offered _ title).
Qed.

Lemma invoke_playbackCoherent P m op :
  playbackCoherent (sessionOf m) ->
  playbackCoherent (sessionOf (atomic (Async.handler op (pending m)) P m).2).
Proof.
  intros Hc.
  apply (playbackCoherent_view _ _ (step_sameView P _ m op (sameView_sessionOf m))).
  by apply step_playbackCoherent.
Qed.

Lemma initial_coherent :
  playbackCoherent (sessionOf (shared initialConfig)) ∧
  recordingCoherent (sessionOf (shared initialConfig)).
Proof.
  split.
  - apply (playbackCoherent_view initialSession); [by split|].
    apply initial_playbackCoherent.
  - apply (recordingCoherent_view initialSession); [by split|].
    apply initial_recordingCoherent.
Qed.

(** What is kept with the record button: the two sides are coherent. *)
Lemma recordButton_kept P happenings (allowed : State -> Step -> bool) :
  (∀ s st, allowed s st = true -> recordButton s st = true) ->
  inTurn allowed P happenings initialConfig = true ->
  playbackCoherent (sessionOf (shared (play P happenings initialConfig))) ∧
  recordingCoherent (sessionOf (shared (play P happenings initialConfig))).
Proof.
  intros Hallowed Hturn.
  apply (play_kept P allowed
           (fun m => playbackCoherent (sessionOf m) ∧ recordingCoherent (sessionOf m)));
    [| | |exact Hturn].
  - intros m1 m2 Hb [Hp Hr]. split.
    + by apply (playbackCoherent_below m1 m2).
    + by apply (recordingCoherent_below m1 m2).
  - intros m op [Hp Hr] Hok. split; [by apply invoke_playbackCoherent|].
    apply (recordingCoherent_view _ _
             (step_sameView P _ m op (sameView_sessionOf m))).
    apply step_recordingCoherent; auto.
  - apply initial_kept. apply initial_coherent.
Qed.






(** X15.  When the operations are invoked only through the buttons of
    the screen of [App], and no button is touched while a handler is in
    flight, then whatever the user touches, whatever the platform
    answers and whenever it reports a playback status, no more than one
    recording has ever been capturing at a time and no more than one
    sound loaded at a time. *)
Theorem screen_in_turn_keeps_one_of_each P happenings :
  touches happenings = true ->
  inTurn anytime P happenings initialConfig = true ->
  let w := world (shared (play P happenings initialConfig)) in
  (size (capturing w) ≤ peakCapturing w ∧ peakCapturing w ≤ 1) ∧
  (size (loaded w) ≤ peakLoaded w ∧ peakLoaded w ≤ 1).
Proof.
  intros Ht Hturn. cbv zeta.
  pose proof (touches_are_offered P happenings _ Ht Hturn) as Hoff.
  destruct (recordButton_kept P happenings offered offered_recordButton Hoff)
    as [(_ & _ & Hl1 & Hl2) (_ & _ & Hc1 & Hc2)].
  auto.
Qed.

(** Record, stop, play and stop playing through the buttons, each
    handler left to finish before the next touch. *)
Lemma screen_in_turn_keeps_one_of_each_witness :
  let happenings :=
    ([Touch "Start Recording"] ++ settles 4 ++ [Touch "Stop Recording"] ++ settles 2 ++
     [Touch "Play Recording"] ++ settles 3 ++
     [Touch "Stop Playing"; Report 1 finished] ++ settles 1)%list in
  let w := world (shared (play cooperative happenings initialConfig)) in
  touches happenings = true ∧
  inTurn anytime cooperative happenings initialConfig = true ∧
  peakCapturing w ≤ 1 ∧ peakLoaded w ≤ 1.
Proof.
  cbv zeta.
  set (happenings :=
    ([Touch "Start Recording"] ++ settles 4 ++ [Touch "Stop Recording"] ++ settles 2 ++
     [Touch "Play Recording"] ++ settles 3 ++
     [Touch "Stop Playing"; Report 1 finished] ++ settles 1)%list).
  assert (Ht : touches happenings = true) by (vm_compute; reflexivity).
  assert (Hturn : inTurn anytime cooperative happenings initialConfig = true)
    by (vm_compute; reflexivity).
  split; [exact Ht|]. split; [exact Hturn|].
  destruct (screen_in_turn_keeps_one_of_each cooperative happenings Ht Hturn)
    as [[_ Hc] [_ Hl]].
  split; [exact Hc | exact Hl].
Defined.

(** Without "in turn" none of the three holds.  "Start Recording" touched
    twice before the first handler has passed its first [await]: the
    button still says "Start Recording", both handlers run, and two
    recordings are capturing. *)
Example overlapping_starts_capture_two :
  let first := play cooperative [Touch "Start Recording"] initialConfig in
  let happenings :=
    ([Touch "Start Recording"; Touch "Start Recording"] ++ settles 4 ++ settles 4)%list in
  let final := play cooperative happenings initialConfig in
  idle first = false ∧
  invoked first (Touch "Start Recording") = Some StartRecording ∧
  recordButton (pending (shared first)) (Invoke StartRecording) = true ∧
  touches happenings = true ∧
  idle final = true ∧
  size (capturing (world (shared final))) = 2 ∧
  peakCapturing (world (shared final)) = 2.
Proof. cbv zeta. repeat apply conj; vm_compute; reflexivity. Qed.

(** "Play Recording" touched twice before the first handler has loaded
    its sound: neither handler sees a sound to unload, and two sounds are
    loaded. *)
Example overlapping_plays_load_two :
  let recorded :=
    ([Touch "Start Recording"] ++ settles 4 ++ [Touch "Stop Recording"] ++ settles 2)%list in
  let first := play cooperative (recorded ++ [Touch "Play Recording"])%list initialConfig in
  let happenings :=
    (recorded ++ [Touch "Play Recording"; Touch "Play Recording"] ++
    settles 3 ++ settles 3)%list in
  let final := play cooperative happenings initialConfig in
  idle first = false ∧
  invoked first (Touch "Play Recording") = Some PlayRecording ∧
  touches happenings = true ∧
  idle final = true ∧
  size (loaded (world (shared final))) = 2 ∧
  peakLoaded (world (shared final)) = 2.
Proof. cbv zeta. repeat apply conj; vm_compute; reflexivity. Qed.

(** "Play Recording" and "Start Recording" touched one after the other
    before either handler has set its flag: each is invoked while the
    flag of the other is false, and both flags end up true. *)
Example overlapping_start_and_play_set_both_flags :
  let recorded :=
    ([Touch "Start Recording"] ++ settles 4 ++ [Touch "Stop Recording"] ++ settles 2)%list in
  let before := play cooperative recorded initialConfig in
  let first := play cooperative (recorded ++ [Touch "Play Recording"])%list initialConfig in
  let happenings :=
    (recorded ++ [Touch "Play Recording"; Touch "Start Recording"] ++
    settles 3 ++ settles 4)%list in
  let final := play cooperative happenings initialConfig in
  serialized (pending (shared before)) (Invoke PlayRecording) = true ∧
  idle first = false ∧
  invoked first (Touch "Start Recording") = Some StartRecording ∧
  serialized (pending (shared first)) (Invoke StartRecording) = true ∧
  idle final = true ∧
  isRecording (pending (shared final)) = true ∧
  isPlaying (pending (shared final)) = true.
Proof. cbv zeta. repeat apply conj; vm_compute; reflexivity. Qed.
